(** * util/uint128.go: a 128-bit unsigned integer on top of math/big

    The Go type [Uint128] embeds a [*big.Int].  Its methods allocate and
    update [big.Int] objects through pointers, so the development models the
    Go heap explicitly: one store for [big.Int] objects, one for [Uint128]
    structs, and a small state monad whose computations either return or
    panic (nil dereference, division by zero, slice bounds).

    [math/big] is Go's standard library and is not part of the repository;
    module [big] below gives each method used by uint128.go the behaviour
    documented in the package. *)

From Stdlib Require Import ZArith Lia List.
From Stdlib.Strings Require Import String Ascii Byte.
From stdpp Require Import base option gmap.

Local Open Scope Z_scope.

(** ** Positional notation, shared by [Int.Bytes]/[Int.SetBytes] (base 256)
       and [Int.Text]/[Int.SetString] (base 10) *)

(** Most significant digit first; [fuel] bounds the number of digits. *)
Fixpoint digits_aux (base : Z) (fuel : nat) (n : Z) (acc : list Z) : list Z :=
  match fuel with
  | O => acc
  | S fuel' =>
      if n =? 0 then acc
      else digits_aux base fuel' (n / base) (n mod base :: acc)
  end.

(** The digits of [n >= 0] without leading zeros; zero has no digit. *)
Definition digits (base n : Z) : list Z :=
  digits_aux base (S (Z.to_nat (Z.log2 n))) n [].

Definition value (base : Z) (ds : list Z) : Z :=
  fold_left (fun acc d => acc * base + d) ds 0.

(** ** Bytes *)

Definition byte_to_Z (b : byte) : Z := Z.of_N (Byte.to_N b).

Definition byte_of_Z (z : Z) : byte :=
  match Byte.of_N (Z.to_N z) with
  | Some b => b
  | None => x00
  end.

(** Go's built-in [copy(dst, src)]: overwrites the first
    [min(len(dst), len(src))] elements of [dst]. *)
Definition copy (dst src : list byte) : list byte :=
  let n := Nat.min (length dst) (length src) in
  take n src ++ drop n dst.

(** ** Decimal characters *)

Definition digit_char (d : Z) : ascii := ascii_of_N (48 + Z.to_N d).

Definition char_digit (c : ascii) : option Z :=
  let n := Z.of_N (N_of_ascii c) in
  if (48 <=? n) && (n <=? 57) then Some (n - 48) else None.

Fixpoint string_of_chars (cs : list ascii) : string :=
  match cs with
  | [] => EmptyString
  | c :: cs' => String c (string_of_chars cs')
  end.

Fixpoint chars_of_string (s : string) : list ascii :=
  match s with
  | EmptyString => []
  | String c s' => c :: chars_of_string s'
  end.

(** Left-to-right accumulation of decimal digits; [None] on a character
    that is not a decimal digit. *)
Fixpoint scan_digits (acc : Z) (cs : list ascii) : option Z :=
  match cs with
  | [] => Some acc
  | c :: cs' =>
      match char_digit c with
      | Some d => scan_digits (acc * 10 + d) cs'
      | None => None
      end
  end.

(** ** The heap *)

(** A Go pointer: [None] is nil. *)
Abbreviation ptr := (option positive) (only parsing).

Record heap : Type := Heap {
  ints : gmap positive Z;               (* the big.Int objects *)
  objs : gmap positive (option positive) (* the Uint128 structs: field Int *)
}.

Definition empty_heap : heap := Heap ∅ ∅.

Inductive outcome (A : Type) : Type :=
| Ret (a : A) (h : heap)
| Panic (h : heap).
Arguments Ret {A} a h.
Arguments Panic {A} h.

Definition M (A : Type) : Type := heap -> outcome A.

#[global] Instance M_ret : MRet M := fun A a h => Ret a h.
#[global] Instance M_bind : MBind M := fun A B f m h =>
  match m h with
  | Ret a h' => f a h'
  | Panic h' => Panic h'
  end.

Definition panic {A : Type} : M A := fun h => Panic h.

(** [new(big.Int)], [big.NewInt]: a fresh object. *)
Definition alloc_int (v : Z) : M ptr := fun h =>
  let a := fresh (dom (ints h)) in
  Ret (Some a) (Heap (<[a := v]> (ints h)) (objs h)).

(** Reading through a [*big.Int]; nil panics. *)
Definition load_int (p : ptr) : M Z := fun h =>
  match p with
  | Some a =>
      match ints h !! a with
      | Some v => Ret v h
      | None => Panic h
      end
  | None => Panic h
  end.

(** Writing through a [*big.Int]; nil panics. *)
Definition store_int (p : ptr) (v : Z) : M unit := fun h =>
  match p with
  | Some a =>
      match ints h !! a with
      | Some _ => Ret tt (Heap (<[a := v]> (ints h)) (objs h))
      | None => Panic h
      end
  | None => Panic h
  end.

(** [&Uint128{i}] *)
Definition alloc_obj (i : ptr) : M ptr := fun h =>
  let a := fresh (dom (objs h)) in
  Ret (Some a) (Heap (ints h) (<[a := i]> (objs h))).

(** [u.Int]; nil [u] panics. *)
Definition field_Int (u : ptr) : M ptr := fun h =>
  match u with
  | Some a =>
      match objs h !! a with
      | Some i => Ret i h
      | None => Panic h
      end
  | None => Panic h
  end.

(** ** math/big *)

Module big.

(** Length of the absolute value in bits; the bit length of 0 is 0. *)
Definition bitlen (v : Z) : Z :=
  if v =? 0 then 0 else Z.log2 (Z.abs v) + 1.

(** The absolute value as a big-endian byte slice. *)
Definition bytes (v : Z) : list byte :=
  map byte_of_Z (digits 256 (Z.abs v)).

(** A big-endian unsigned integer. *)
Definition of_bytes (buf : list byte) : Z :=
  value 256 (map byte_to_Z buf).

(** Euclidean division, as [Int.Div] implements it: the truncated
    quotient, adjusted when the remainder is negative. *)
Definition div (x y : Z) : Z :=
  let q := Z.quot x y in
  let r := Z.rem x y in
  if r <? 0 then (if y <? 0 then q + 1 else q - 1) else q.

(** [x**y] for a nil modulus; the result is 1 when [y <= 0]. *)
Definition exp (x y : Z) : Z :=
  if y <=? 0 then 1 else x ^ y.

(** Base-10 text: ["0"] for zero, a ["-"] before negative values. *)
Definition itoa (v : Z) : string :=
  if v =? 0 then "0"%string
  else
    let ds := map digit_char (digits 10 (Z.abs v)) in
    string_of_chars (if v <? 0 then "-"%char :: ds else ds).

(** Base-10 parsing: an optional sign, then one or more decimal digits
    and nothing else. *)
Definition atoi (s : string) : option Z :=
  let cs := chars_of_string s in
  let '(neg, body) :=
    match cs with
    | "-"%char :: r => (true, r)
    | "+"%char :: r => (false, r)
    | _ => (false, cs)
    end in
  match body with
  | [] => None
  | _ =>
      match scan_digits 0 body with
      | Some n => Some (if neg then - n else n)
      | None => None
      end
  end.

Definition NewInt (x : Z) : M ptr := alloc_int x.

Definition new : M ptr := alloc_int 0.

Definition Sign (x : ptr) : M Z :=
  v ← load_int x; mret (Z.sgn v).

Definition BitLen (x : ptr) : M Z :=
  v ← load_int x; mret (bitlen v).

Definition Bytes (x : ptr) : M (list byte) :=
  v ← load_int x; mret (bytes v).

Definition SetBytes (z : ptr) (buf : list byte) : M ptr :=
  store_int z (of_bytes buf);; mret z.

Definition SetUint64 (z : ptr) (x : Z) : M ptr :=
  store_int z x;; mret z.

Definition Add (z x y : ptr) : M ptr :=
  a ← load_int x; b ← load_int y; store_int z (a + b);; mret z.

Definition Sub (z x y : ptr) : M ptr :=
  a ← load_int x; b ← load_int y; store_int z (a - b);; mret z.

Definition Mul (z x y : ptr) : M ptr :=
  a ← load_int x; b ← load_int y; store_int z (a * b);; mret z.

(** Panics on a zero divisor. *)
Definition Div (z x y : ptr) : M ptr :=
  a ← load_int x; b ← load_int y;
  if b =? 0 then panic else store_int z (div a b);; mret z.

(** [z.Exp(x, y, nil)] *)
Definition Exp (z x y : ptr) : M ptr :=
  a ← load_int x; b ← load_int y; store_int z (exp a b);; mret z.

Definition Cmp (x y : ptr) : M Z :=
  a ← load_int x; b ← load_int y;
  mret (match a ?= b with Lt => -1 | Eq => 0 | Gt => 1 end).

(** [z.Set(x)]; the name [Set] is a keyword of Rocq. *)
Definition Set_ (z x : ptr) : M ptr :=
  v ← load_int x; store_int z v;; mret z.

(** [x.Text(10)]; a nil receiver prints as ["<nil>"]. *)
Definition Text (x : ptr) : M string :=
  match x with
  | None => mret "<nil>"%string
  | Some _ => v ← load_int x; mret (itoa v)
  end.

(** [z.SetString(s, 10)]: the pointer and a success flag.  On failure Go
    leaves the value of [z] unspecified; it is kept as it was here. *)
Definition SetString (z : ptr) (s : string) : M (ptr * bool) :=
  match atoi s with
  | Some v => store_int z v;; mret (z, true)
  | None => _ ← load_int z; mret (None, false)
  end.

End big.

(** ** util/uint128.go *)

Definition Uint128Bytes : Z := 16.
Definition Uint128Bits : Z := 128.

Inductive error : Type :=
| ErrUint128Overflow
| ErrUint128Underflow
| ErrUint128InvalidBytesSize
| ErrUint128InvalidString.

(** Go's [len] on a slice, as an [int]. *)
Definition len {A : Type} (l : list A) : Z := Z.of_nat (length l).

(** The zero value of [[16]byte]. *)
Definition zero16 : list byte := replicate 16 x00.

Definition Validate (u : ptr) : M (option error) :=
  i ← field_Int u;
  s ← big.Sign i;
  if s <? 0 then mret (Some ErrUint128Underflow)
  else
    n ← big.BitLen i;
    if n >? Uint128Bits then mret (Some ErrUint128Overflow)
    else mret None.

Definition NewUint128 : M ptr :=
  z ← big.NewInt 0; alloc_obj z.

Definition NewUint128FromString (str : string) : M (ptr * option error) :=
  b ← big.new;
  '(_, success) ← big.SetString b str;
  if negb success then mret (None, Some ErrUint128InvalidString)
  else
    tmp ← alloc_obj b;
    err ← Validate tmp;
    match err with
    | Some e => mret (None, Some e)
    | None => r ← alloc_obj b; mret (r, None)
    end.

(** [i] is an [int64]. *)
Definition NewUint128FromInt (i : Z) : M (ptr * option error) :=
  b ← big.NewInt i;
  obj ← alloc_obj b;
  err ← Validate obj;
  match err with
  | Some e => mret (None, Some e)
  | None => mret (obj, None)
  end.

Definition NewUint128FromBigInt (i : ptr) : M (ptr * option error) :=
  obj ← alloc_obj i;
  err ← Validate obj;
  match err with
  | Some e => mret (None, Some e)
  | None => mret (obj, None)
  end.

(** A [[16]byte] is a list of 16 bytes; [res[idx:]] panics unless
    [0 <= idx <= 16]. *)
Definition ToFixedSizeBytes (u : ptr) : M (list byte * option error) :=
  let res := zero16 in
  err ← Validate u;
  match err with
  | Some e => mret (res, Some e)
  | None =>
      i ← field_Int u;
      bs ← big.Bytes i;
      let l := len bs in
      if l =? 0 then mret (res, None)
      else
        let idx := Uint128Bytes - len bs in
        if idx <? Uint128Bytes then
          if idx <? 0 then panic
          else
            let k := Z.to_nat idx in
            mret (take k res ++ copy (drop k res) bs, None)
        else mret (res, None)
  end.

Definition ToFixedSizeByteSlice (u : ptr) : M (list byte * option error) :=
  '(bytes, err) ← ToFixedSizeBytes u;
  mret (bytes, err).

(** The method [String]; the name is taken by the constructor of Rocq's
    strings. *)
Definition Uint128_String (u : ptr) : M string :=
  i ← field_Int u; big.Text i.

(** The loop [for ; i < Uint128Bytes; i++ { if bytes[i] != 0 { break } }]
    with [n] iterations to go; [None] is an index out of range. *)
Fixpoint skip_zeros (bytes : list byte) (i n : nat) : option nat :=
  match n with
  | O => Some i
  | S n' =>
      match bytes !! i with
      | None => None
      | Some b =>
          if Byte.eqb b x00 then skip_zeros bytes (S i) n' else Some i
      end
  end.

Definition FromFixedSizeByteSlice (u : ptr) (bytes : list byte)
  : M (ptr * option error) :=
  if negb (len bytes =? Uint128Bytes) then
    mret (None, Some ErrUint128InvalidBytesSize)
  else
    match skip_zeros bytes 0 (Z.to_nat Uint128Bytes) with
    | None => panic
    | Some i =>
        (if Z.of_nat i <? Uint128Bytes then
           z ← field_Int u; big.SetBytes z (drop i bytes)
         else
           z ← field_Int u; big.SetUint64 z 0);;
        mret (u, None)
    end.

(** [bytes] is a [[16]byte]. *)
Definition FromFixedSizeBytes (u : ptr) (bytes : list byte) : M ptr :=
  FromFixedSizeByteSlice u bytes;;
  mret u.

(** [bytes] is a [[16]byte]. *)
Definition NewUint128FromFixedSizeBytes (bytes : list byte) : M ptr :=
  u ← NewUint128;
  FromFixedSizeBytes u bytes.

Definition NewUint128FromFixedSizeByteSlice (bytes : list byte)
  : M (ptr * option error) :=
  u ← NewUint128;
  FromFixedSizeByteSlice u bytes.

(** The common shape of the arithmetic methods:
    [obj := &Uint128{NewUint128().Int.Op(u.Int, x.Int)}], then [Validate]. *)
Definition checked (op : ptr -> ptr -> ptr -> M ptr) (u x : ptr)
  : M (ptr * option error) :=
  n ← NewUint128;
  z ← field_Int n;
  a ← field_Int u;
  b ← field_Int x;
  r ← op z a b;
  obj ← alloc_obj r;
  err ← Validate obj;
  match err with
  | Some e => mret (None, Some e)
  | None => mret (obj, None)
  end.

Definition Add (u x : ptr) : M (ptr * option error) := checked big.Add u x.
Definition Sub (u x : ptr) : M (ptr * option error) := checked big.Sub u x.
Definition Mul (u x : ptr) : M (ptr * option error) := checked big.Mul u x.
Definition Div (u x : ptr) : M (ptr * option error) := checked big.Div u x.
Definition Exp (u x : ptr) : M (ptr * option error) := checked big.Exp u x.

Definition DeepCopy (u : ptr) : M ptr :=
  z ← big.new;
  i ← field_Int u;
  big.Set_ z i;;
  alloc_obj z.

Definition Cmp (u x : ptr) : M Z :=
  a ← field_Int u; b ← field_Int x; big.Cmp a b.

(** Lexicographic order on byte strings, first byte most significant. *)
Fixpoint bytes_ltb (bs cs : list byte) : bool :=
  match bs, cs with
  | b :: bs', c :: cs' =>
      (byte_to_Z b <? byte_to_Z c)
      || ((byte_to_Z b =? byte_to_Z c) && bytes_ltb bs' cs')
  | [], _ :: _ => true
  | _, [] => false
  end.

(** ** Reading the heap *)

(** The integer a [*Uint128] denotes, when both pointers on the way are
    live. *)
Definition value_of (h : heap) (u : ptr) : option Z :=
  a ← u; i ← objs h !! a; j ← i; ints h !! j.

(** The range invariant of the type. *)
Definition in_range (v : Z) : Prop := 0 <= v <= 2 ^ 128 - 1.

(** [h'] keeps every object of [h] as it is. *)
Definition preserves (h h' : heap) : Prop :=
  ints h ⊆ ints h' /\ objs h ⊆ objs h'.

(** [p] is a pointer to a [Uint128] struct, and through it to a [big.Int],
    neither of which exists in [h]. *)
Definition fresh_in (h h' : heap) (p : ptr) : Prop :=
  exists a i, p = Some a /\ objs h !! a = None /\
              objs h' !! a = Some (Some i) /\ ints h !! i = None.

(** What [Validate] answers for a stored value. *)
Definition range_error (v : Z) : option error :=
  if Z.sgn v <? 0 then Some ErrUint128Underflow
  else if big.bitlen v >? Uint128Bits then Some ErrUint128Overflow
  else None.

(** ** Sample heaps: one or two live [Uint128] values *)

Definition heap1 (v : Z) : heap :=
  Heap {[1%positive := v]} {[1%positive := Some 1%positive]}.

Definition heap2 (a b : Z) : heap :=
  Heap {[1%positive := a; 2%positive := b]}
       {[1%positive := Some 1%positive; 2%positive := Some 2%positive]}.

Definition sample16 : list byte :=
  [x00; x00; x00; x00; x00; x00; x00; x00;
   x00; x00; x00; x00; x00; x00; x01; x02].

(** The two ways an arithmetic method returns: a pointer to a [Uint128]
    holding [v] with a nil error, or a nil pointer with error [e]. *)
Definition yields (m : M (option positive * option error)) (h : heap)
    (r : Z + error) : Prop :=
  exists h' p err,
    m h = Ret (p, err) h' /\
    match r with
    | inl v => err = None /\ value_of h' p = Some v
    | inr e => p = None /\ err = Some e
    end.

Inductive arith : Type := OpAdd | OpSub | OpMul | OpDiv | OpExp.

#[global] Instance arith_eq_dec : EqDecision arith.
Proof. solve_decision. Defined.

Definition run_arith (o : arith)
  : option positive -> option positive -> M (option positive * option error) :=
  match o with
  | OpAdd => Add
  | OpSub => Sub
  | OpMul => Mul
  | OpDiv => Div
  | OpExp => Exp
  end.

(** The integer each operation stores before the range check. *)
Definition exact (o : arith) (a b : Z) : Z :=
  match o with
  | OpAdd => a + b
  | OpSub => a - b
  | OpMul => a * b
  | OpDiv => big.div a b
  | OpExp => big.exp a b
  end.

(** Run a method and read what it returned: the value behind the pointer
    (if any) and the error; [None] for a panic. *)
Definition observe (m : M (option positive * option error)) (h : heap)
  : option (option Z * option error) :=
  match m h with
  | Ret (p, err) h' => Some (value_of h' p, err)
  | Panic _ => None
  end.

(** ** Positional notation: digits and value are inverse *)

Section Positional.
Variable base : Z.
Hypothesis base_ge_2 : 2 <= base.

Lemma value_snoc (ds : list Z) (d : Z) :
  value base (ds ++ [d]) = value base ds * base + d.
Proof. unfold value. now rewrite fold_left_app. Qed.

Lemma value_zero_cons (ds : list Z) : value base (0 :: ds) = value base ds.
Proof. reflexivity. Qed.

Lemma value_zeros_app (k : nat) (ds : list Z) :
  value base (replicate k 0 ++ ds) = value base ds.
Proof. induction k as [|k IH]; [reflexivity|]. exact IH. Qed.

Lemma value_zeros (k : nat) : value base (replicate k 0) = 0.
Proof.
  rewrite <- (app_nil_r (replicate k 0)). now rewrite value_zeros_app.
Qed.

Lemma digits_aux_acc (fuel : nat) :
  forall n acc, digits_aux base fuel n acc = digits_aux base fuel n [] ++ acc.
Proof.
  induction fuel as [|fuel IH]; intros n acc; simpl; [reflexivity|].
  destruct (n =? 0); [reflexivity|].
  rewrite (IH _ (_ :: acc)), (IH _ [_]), <- app_assoc. reflexivity.
Qed.

Lemma div_base_lt (n : Z) (fuel : nat) :
  0 <= n < 2 ^ Z.of_nat (S fuel) -> 0 <= n / base < 2 ^ Z.of_nat fuel.
Proof.
  intros [Hn Hlt]. split; [apply Z.div_pos; lia|].
  apply Z.div_lt_upper_bound; [lia|].
  rewrite Nat2Z.inj_succ, Z.pow_succ_r in Hlt by lia.
  assert (0 < 2 ^ Z.of_nat fuel) by (apply Z.pow_pos_nonneg; lia). nia.
Qed.

Lemma value_digits_aux (fuel : nat) :
  forall n, 0 <= n < 2 ^ Z.of_nat fuel ->
    value base (digits_aux base fuel n []) = n.
Proof.
  induction fuel as [|fuel IH]; intros n Hn.
  - simpl in *. unfold value. simpl. lia.
  - simpl digits_aux. destruct (Z.eqb_spec n 0) as [->|Hne]; [reflexivity|].
    rewrite digits_aux_acc, value_snoc, IH by now apply div_base_lt.
    pose proof (Z.div_mod n base). lia.
Qed.

Lemma log2_fuel (n : Z) :
  0 <= n -> 0 <= n < 2 ^ Z.of_nat (S (Z.to_nat (Z.log2 n))).
Proof.
  intros Hn. split; [exact Hn|].
  rewrite Nat2Z.inj_succ, Z2Nat.id by apply Z.log2_nonneg.
  destruct (Z.eq_dec n 0) as [->|Hne]; [reflexivity|].
  apply Z.log2_spec. lia.
Qed.

Lemma value_digits (n : Z) : 0 <= n -> value base (digits base n) = n.
Proof. intros Hn. apply value_digits_aux, log2_fuel, Hn. Qed.

Lemma digits_aux_range (fuel : nat) :
  forall n, Forall (fun d => 0 <= d < base) (digits_aux base fuel n []).
Proof.
  induction fuel as [|fuel IH]; intros n; simpl; [constructor|].
  destruct (n =? 0); [constructor|].
  rewrite digits_aux_acc. apply Forall_app. split; [apply IH|].
  constructor; [|constructor]. apply Z.mod_pos_bound. lia.
Qed.

Lemma digits_range (n : Z) : Forall (fun d => 0 <= d < base) (digits base n).
Proof. apply digits_aux_range. Qed.

Lemma digits_aux_head (fuel : nat) :
  forall n, 0 < n < 2 ^ Z.of_nat fuel ->
    exists d ds, digits_aux base fuel n [] = d :: ds /\ 0 < d < base.
Proof.
  induction fuel as [|fuel IH]; intros n Hn.
  - simpl in Hn. lia.
  - simpl digits_aux. destruct (Z.eqb_spec n 0) as [->|Hne]; [lia|].
    rewrite digits_aux_acc.
    destruct (Z.eq_dec (n / base) 0) as [Hq|Hq].
    + exists (n mod base), []. rewrite Hq. split.
      * destruct fuel; reflexivity.
      * pose proof (Z.div_mod n base). pose proof (Z.mod_pos_bound n base).
        lia.
    + destruct (IH (n / base)) as (d & ds & -> & Hd).
      * pose proof (div_base_lt n fuel). lia.
      * exists d, (ds ++ [n mod base]). now split.
Qed.

(** No leading zero. *)
Lemma digits_head (n : Z) :
  0 < n -> exists d ds, digits base n = d :: ds /\ 0 < d < base.
Proof.
  intros Hn. apply digits_aux_head. pose proof (log2_fuel n). lia.
Qed.

Lemma digits_zero : digits base 0 = [].
Proof. reflexivity. Qed.

Lemma digits_aux_length (fuel : nat) :
  forall n (k : nat), 0 <= n < base ^ Z.of_nat k ->
    (length (digits_aux base fuel n []) <= k)%nat.
Proof.
  induction fuel as [|fuel IH]; intros n k Hn; simpl; [lia|].
  destruct (Z.eqb_spec n 0) as [->|Hne]; [simpl; lia|].
  destruct k as [|k]; [simpl in Hn; lia|].
  rewrite digits_aux_acc, length_app. simpl.
  enough (length (digits_aux base fuel (n / base) []) <= k)%nat by lia.
  apply IH. split; [apply Z.div_pos; lia|].
  apply Z.div_lt_upper_bound; [lia|].
  rewrite Nat2Z.inj_succ, Z.pow_succ_r in Hn by lia. lia.
Qed.

Lemma digits_length (n : Z) (k : nat) :
  0 <= n < base ^ Z.of_nat k -> (length (digits base n) <= k)%nat.
Proof. apply digits_aux_length. Qed.

(** A numeral of fixed width is determined by its value. *)
Lemma value_bound (ds : list Z) :
  Forall (fun d => 0 <= d < base) ds ->
  0 <= value base ds < base ^ Z.of_nat (length ds).
Proof.
  induction ds as [|d ds IH] using rev_ind; intros Hds.
  - unfold value. simpl. lia.
  - apply Forall_app in Hds as [Hds Hd]. inversion_clear Hd as [|? ? Hd' _].
    specialize (IH Hds). rewrite value_snoc, length_app. simpl length.
    replace (Z.of_nat (length ds + 1)) with (Z.succ (Z.of_nat (length ds)))
      by lia.
    rewrite Z.pow_succ_r by lia. nia.
Qed.

Lemma value_inj (ds es : list Z) :
  Forall (fun d => 0 <= d < base) ds ->
  Forall (fun d => 0 <= d < base) es ->
  length ds = length es ->
  value base ds = value base es ->
  ds = es.
Proof.
  revert es. induction ds as [|d ds IH] using rev_ind; intros es Hds Hes Hl Hv.
  - destruct es; [reflexivity|discriminate].
  - destruct es as [|e es _] using rev_ind.
    { rewrite length_app in Hl. simpl in Hl. lia. }
    apply Forall_app in Hds as [Hds Hd]. inversion_clear Hd as [|? ? Hd' _].
    apply Forall_app in Hes as [Hes He]. inversion_clear He as [|? ? He' _].
    rewrite !value_snoc in Hv. rewrite !length_app in Hl. simpl in Hl.
    assert (value base ds = value base es /\ d = e) as [Hv' ->].
    { apply (Z.div_mod_unique base); [left; lia|left; lia|lia]. }
    f_equal. apply IH; [assumption|assumption|lia|assumption].
Qed.

End Positional.

(** ** Bytes and the 16-byte layout *)

Lemma byte_to_Z_range (b : byte) : 0 <= byte_to_Z b < 256.
Proof. unfold byte_to_Z. pose proof (Byte.to_N_bounded b). lia. Qed.

Lemma byte_of_to_Z (b : byte) : byte_of_Z (byte_to_Z b) = b.
Proof.
  unfold byte_of_Z, byte_to_Z. now rewrite N2Z.id, Byte.of_to_N.
Qed.

Lemma byte_to_of_Z (z : Z) : 0 <= z < 256 -> byte_to_Z (byte_of_Z z) = z.
Proof.
  intros Hz. unfold byte_of_Z, byte_to_Z.
  destruct (Byte.of_N (Z.to_N z)) as [b|] eqn:E.
  - apply Byte.to_of_N in E. lia.
  - apply Byte.of_N_None_iff in E. lia.
Qed.

Lemma byte_to_Z_zero (b : byte) : byte_to_Z b = 0 -> b = x00.
Proof.
  intros H. rewrite <- (byte_of_to_Z b), H. reflexivity.
Qed.

Lemma map_byte_to_of (ds : list Z) :
  Forall (fun d => 0 <= d < 256) ds ->
  map byte_to_Z (map byte_of_Z ds) = ds.
Proof.
  induction 1 as [|d ds Hd _ IH]; simpl; [reflexivity|].
  now rewrite byte_to_of_Z, IH.
Qed.

Lemma map_byte_of_to (bs : list byte) :
  map byte_of_Z (map byte_to_Z bs) = bs.
Proof.
  induction bs as [|b bs IH]; simpl; [reflexivity|].
  now rewrite byte_of_to_Z, IH.
Qed.

Lemma map_byte_to_Z_range (bs : list byte) :
  Forall (fun d => 0 <= d < 256) (map byte_to_Z bs).
Proof.
  induction bs as [|b bs IH]; simpl; constructor;
    [apply byte_to_Z_range|exact IH].
Qed.

Lemma map_byte_to_Z_zeros (k : nat) :
  map byte_to_Z (replicate k x00) = replicate k 0.
Proof. induction k as [|k IH]; simpl; [reflexivity|]. now rewrite IH. Qed.

Lemma of_bytes_bytes (v : Z) : big.of_bytes (big.bytes v) = Z.abs v.
Proof.
  unfold big.of_bytes, big.bytes.
  rewrite map_byte_to_of by (apply digits_range; lia).
  apply value_digits; lia.
Qed.

Lemma of_bytes_zeros_app (k : nat) (bs : list byte) :
  big.of_bytes (replicate k x00 ++ bs) = big.of_bytes bs.
Proof.
  unfold big.of_bytes. rewrite map_app, map_byte_to_Z_zeros.
  apply value_zeros_app.
Qed.

Lemma of_bytes_range (bs : list byte) :
  0 <= big.of_bytes bs < 256 ^ Z.of_nat (length bs).
Proof.
  unfold big.of_bytes.
  rewrite <- (length_map byte_to_Z bs).
  apply value_bound; [lia|apply map_byte_to_Z_range].
Qed.

(** Two byte strings of the same length with the same big-endian value are
    the same byte string. *)
Lemma of_bytes_inj (bs cs : list byte) :
  length bs = length cs -> big.of_bytes bs = big.of_bytes cs -> bs = cs.
Proof.
  intros Hl Hv.
  rewrite <- (map_byte_of_to bs), <- (map_byte_of_to cs).
  apply (f_equal (map byte_of_Z)).
  apply (value_inj 256).
  - apply map_byte_to_Z_range.
  - apply map_byte_to_Z_range.
  - now rewrite !length_map.
  - exact Hv.
Qed.

Lemma bytes_length (v : Z) :
  0 <= v <= 2 ^ 128 - 1 -> (length (big.bytes v) <= 16)%nat.
Proof.
  intros Hv. unfold big.bytes. rewrite length_map.
  apply digits_length; [lia|]. rewrite Z.abs_eq by lia.
  change (256 ^ Z.of_nat 16) with (2 ^ 128). lia.
Qed.

Lemma bytes_zero : big.bytes 0 = [].
Proof. reflexivity. Qed.

(** What [copy(res[idx:], bs)] leaves in [res]: the bytes of [bs], flush
    right. *)
Lemma fixed_layout (bs : list byte) :
  (1 <= length bs <= 16)%nat ->
  let k := Z.to_nat (Uint128Bytes - len bs) in
  take k zero16 ++ copy (drop k zero16) bs
  = replicate (16 - length bs) x00 ++ bs.
Proof.
  intros Hl k. unfold Uint128Bytes, len in k.
  assert (k = (16 - length bs)%nat) as -> by (unfold k; lia).
  unfold zero16, copy.
  rewrite take_replicate, drop_replicate, length_replicate.
  replace (Nat.min (16 - (16 - length bs)) (length bs)) with (length bs)
    by lia.
  rewrite firstn_all, drop_replicate.
  replace (16 - (16 - length bs) - length bs)%nat with 0%nat by lia.
  simpl. rewrite app_nil_r. f_equal. f_equal. lia.
Qed.

(** ** The leading-zero scan of the decoder *)

Lemma of_bytes_zero_cons (bs : list byte) :
  big.of_bytes (x00 :: bs) = big.of_bytes bs.
Proof. reflexivity. Qed.

Lemma skip_zeros_spec (bytes : list byte) (n : nat) :
  forall i, (i + n <= length bytes)%nat ->
    exists j, skip_zeros bytes i n = Some j /\ (i <= j <= i + n)%nat /\
              big.of_bytes (drop j bytes) = big.of_bytes (drop i bytes).
Proof.
  induction n as [|n IH]; intros i Hi; simpl.
  - exists i. repeat split; lia.
  - destruct (lookup_lt_is_Some_2 bytes i) as [b Hb]; [lia|].
    rewrite Hb. destruct (Byte.eqb b x00) eqn:E.
    + apply Byte.byte_dec_bl in E. subst b.
      destruct (IH (S i)) as (j & Hj & Hr & Hv); [lia|].
      exists j. repeat split; [exact Hj|lia|lia|].
      rewrite Hv. rewrite (drop_S _ _ _ Hb). reflexivity.
    + exists i. repeat split; lia.
Qed.

(** ** Running the primitives *)

Lemma bind_ret {A B : Type} (m : M A) (f : A -> M B) (h h' : heap) (a : A) :
  m h = Ret a h' -> (m ≫= f) h = f a h'.
Proof. intros E. unfold mbind, M_bind. now rewrite E. Qed.

Lemma bind_panic {A B : Type} (m : M A) (f : A -> M B) (h h' : heap) :
  m h = Panic h' -> (m ≫= f) h = Panic h'.
Proof. intros E. unfold mbind, M_bind. now rewrite E. Qed.

Lemma load_int_run (h : heap) (a : positive) (v : Z) :
  ints h !! a = Some v -> load_int (Some a) h = Ret v h.
Proof. intros E. unfold load_int. now rewrite E. Qed.

Lemma store_int_run (h : heap) (a : positive) (w v : Z) :
  ints h !! a = Some w ->
  store_int (Some a) v h = Ret tt (Heap (<[a := v]> (ints h)) (objs h)).
Proof. intros E. unfold store_int. now rewrite E. Qed.

Lemma field_Int_run (h : heap) (a : positive) (i : option positive) :
  objs h !! a = Some i -> field_Int (Some a) h = Ret i h.
Proof. intros E. unfold field_Int. now rewrite E. Qed.

Lemma fresh_lookup {A : Type} (m : gmap positive A) :
  m !! fresh (dom m) = None.
Proof. apply not_elem_of_dom, is_fresh. Qed.

Lemma fresh_ne {A : Type} (m : gmap positive A) (a : positive) (v : A) :
  m !! a = Some v -> fresh (dom m) <> a.
Proof. intros E Heq. rewrite <- Heq, fresh_lookup in E. discriminate. Qed.

Lemma value_of_inv (h : heap) (u : option positive) (v : Z) :
  value_of h u = Some v ->
  exists a i, u = Some a /\ objs h !! a = Some (Some i) /\
              ints h !! i = Some v.
Proof.
  unfold value_of. destruct u as [a|]; simpl; [|discriminate].
  destruct (objs h !! a) as [[i|]|] eqn:Ha; simpl; try discriminate.
  intros E. now exists a, i.
Qed.

Lemma value_of_intro (h : heap) (a i : positive) (v : Z) :
  objs h !! a = Some (Some i) -> ints h !! i = Some v ->
  value_of h (Some a) = Some v.
Proof. intros Ha Hi. unfold value_of. simpl. rewrite Ha. simpl. exact Hi. Qed.

Lemma preserves_refl (h : heap) : preserves h h.
Proof. split; reflexivity. Qed.

Lemma preserves_trans (h1 h2 h3 : heap) :
  preserves h1 h2 -> preserves h2 h3 -> preserves h1 h3.
Proof. intros [] []. split; etrans; eassumption. Qed.

Lemma preserves_value_of (h h' : heap) (u : option positive) (v : Z) :
  preserves h h' -> value_of h u = Some v -> value_of h' u = Some v.
Proof.
  intros [Hi Ho] Hu. apply value_of_inv in Hu as (a & i & -> & Ha & Hv).
  apply value_of_intro with i.
  - eapply lookup_weaken; eassumption.
  - eapply lookup_weaken; eassumption.
Qed.

Lemma preserves_alloc_int (h : heap) (v : Z) :
  preserves h (Heap (<[fresh (dom (ints h)) := v]> (ints h)) (objs h)).
Proof.
  split; simpl; [|reflexivity]. apply insert_subseteq, fresh_lookup.
Qed.

Lemma preserves_alloc_obj (h : heap) (i : option positive) :
  preserves h (Heap (ints h) (<[fresh (dom (objs h)) := i]> (objs h))).
Proof.
  split; simpl; [reflexivity|]. apply insert_subseteq, fresh_lookup.
Qed.

(** ** Validation *)

Lemma Validate_run (h : heap) (u : option positive) (v : Z) :
  value_of h u = Some v -> Validate u h = Ret (range_error v) h.
Proof.
  intros Hu. apply value_of_inv in Hu as (a & i & -> & Ha & Hv).
  unfold Validate, big.Sign, big.BitLen, range_error.
  rewrite (bind_ret _ _ _ _ _ (field_Int_run _ _ _ Ha)).
  rewrite (bind_ret _ _ h h (Z.sgn v)).
  2:{ now rewrite (bind_ret _ _ _ _ _ (load_int_run _ _ _ Hv)). }
  destruct (Z.sgn v <? 0); [reflexivity|].
  rewrite (bind_ret _ _ h h (big.bitlen v)).
  2:{ now rewrite (bind_ret _ _ _ _ _ (load_int_run _ _ _ Hv)). }
  destruct (big.bitlen v >? Uint128Bits); reflexivity.
Qed.

Lemma bitlen_le (v : Z) (k : Z) :
  0 <= v -> 0 <= k -> (big.bitlen v <= k <-> v < 2 ^ k).
Proof.
  intros Hv Hk. unfold big.bitlen.
  destruct (Z.eqb_spec v 0) as [->|Hne].
  - split; intros _; [apply Z.pow_pos_nonneg|]; lia.
  - rewrite Z.abs_eq by lia.
    rewrite (Z.log2_lt_pow2 v k) by lia. lia.
Qed.

Lemma range_error_neg (v : Z) :
  v < 0 -> range_error v = Some ErrUint128Underflow.
Proof.
  intros Hv. unfold range_error.
  destruct (Z.ltb_spec (Z.sgn v) 0) as [_|H]; [reflexivity|].
  pose proof (Z.sgn_neg v). lia.
Qed.

Lemma range_error_big (v : Z) :
  2 ^ 128 <= v -> range_error v = Some ErrUint128Overflow.
Proof.
  intros Hv. unfold range_error.
  assert (0 < 2 ^ 128) by reflexivity.
  destruct (Z.ltb_spec (Z.sgn v) 0) as [H'|_].
  { pose proof (Z.sgn_pos v). lia. }
  unfold Uint128Bits.
  destruct (Z.gtb_spec (big.bitlen v) 128) as [_|H']; [reflexivity|].
  apply bitlen_le in H'; lia.
Qed.

Lemma range_error_ok (v : Z) : in_range v -> range_error v = None.
Proof.
  intros [Hlo Hhi]. unfold range_error.
  destruct (Z.ltb_spec (Z.sgn v) 0) as [H'|_].
  { pose proof (Z.sgn_nonneg v). lia. }
  unfold Uint128Bits.
  destruct (Z.gtb_spec (big.bitlen v) 128) as [H'|_]; [|reflexivity].
  assert (big.bitlen v <= 128) by (apply bitlen_le; lia). lia.
Qed.

Lemma range_error_None (v : Z) : range_error v = None -> in_range v.
Proof.
  intros E. unfold in_range.
  destruct (Z_lt_dec v 0) as [Hn|Hn].
  { rewrite range_error_neg in E by lia. discriminate. }
  destruct (Z_le_dec (2 ^ 128) v) as [Hb|Hb].
  { rewrite range_error_big in E by lia. discriminate. }
  lia.
Qed.

(** ** The arithmetic methods *)

Section Checked.
Variable op :
  option positive -> option positive -> option positive ->
  M (option positive).
Variables (h : heap) (u x : option positive) (a b : Z).
Hypothesis Hu : value_of h u = Some a.
Hypothesis Hx : value_of h x = Some b.

(** When [op] stores [r] in its receiver, [checked op] returns a new
    struct around a new [big.Int] holding [r], or the range error of [r];
    nothing that existed before is touched. *)
Lemma checked_run (r : Z) :
  (forall h0 z i j c,
      ints h0 !! z = Some c -> ints h0 !! i = Some a ->
      ints h0 !! j = Some b ->
      op (Some z) (Some i) (Some j) h0
      = Ret (Some z) (Heap (<[z := r]> (ints h0)) (objs h0))) ->
  exists h' o,
    checked op u x h
    = Ret (match range_error r with
           | Some e => (None, Some e)
           | None => (o, None)
           end) h'
    /\ preserves h h' /\ fresh_in h h' o /\ value_of h' o = Some r.
Proof.
  intros Hop.
  destruct (value_of_inv _ _ _ Hu) as (ua & ui & -> & Hua & Hui).
  destruct (value_of_inv _ _ _ Hx) as (xa & xi & -> & Hxa & Hxi).
  set (z := fresh (dom (ints h))).
  set (n := fresh (dom (objs h))).
  set (h1 := Heap (<[z := 0]> (ints h)) (<[n := Some z]> (objs h))).
  set (h2 := Heap (<[z := r]> (ints h)) (<[n := Some z]> (objs h))).
  set (o := fresh (dom (objs h2))).
  set (h3 := Heap (ints h2) (<[o := Some z]> (objs h2))).
  assert (Hzu : z <> ui) by (eapply fresh_ne; eassumption).
  assert (Hzx : z <> xi) by (eapply fresh_ne; eassumption).
  assert (Hnu : n <> ua) by (eapply fresh_ne; eassumption).
  assert (Hnx : n <> xa) by (eapply fresh_ne; eassumption).
  assert (Hz : ints h !! z = None) by apply fresh_lookup.
  assert (Hn : objs h !! n = None) by apply fresh_lookup.
  assert (Ho : objs h2 !! o = None) by apply fresh_lookup.
  assert (Hon : o <> n).
  { intros E. rewrite E in Ho. simpl in Ho.
    rewrite lookup_insert_eq in Ho. discriminate. }
  assert (E1 : NewUint128 h = Ret (Some n) h1) by reflexivity.
  assert (E2 : field_Int (Some n) h1 = Ret (Some z) h1).
  { apply field_Int_run. simpl. apply lookup_insert_eq. }
  assert (E3 : field_Int (Some ua) h1 = Ret (Some ui) h1).
  { apply field_Int_run. simpl. now rewrite lookup_insert_ne. }
  assert (E4 : field_Int (Some xa) h1 = Ret (Some xi) h1).
  { apply field_Int_run. simpl. now rewrite lookup_insert_ne. }
  assert (E5 : op (Some z) (Some ui) (Some xi) h1 = Ret (Some z) h2).
  { rewrite (Hop h1 z ui xi 0); simpl.
    - unfold h2. now rewrite insert_insert_eq.
    - apply lookup_insert_eq.
    - now rewrite lookup_insert_ne.
    - now rewrite lookup_insert_ne. }
  assert (E6 : alloc_obj (Some z) h2 = Ret (Some o) h3) by reflexivity.
  assert (Hv : value_of h3 (Some o) = Some r).
  { apply value_of_intro with z; simpl; apply lookup_insert_eq. }
  exists h3, (Some o). repeat split.
  - unfold checked.
    rewrite (bind_ret _ _ _ _ _ E1), (bind_ret _ _ _ _ _ E2),
      (bind_ret _ _ _ _ _ E3), (bind_ret _ _ _ _ _ E4),
      (bind_ret _ _ _ _ _ E5), (bind_ret _ _ _ _ _ E6),
      (bind_ret _ _ _ _ _ (Validate_run _ _ _ Hv)).
    destruct (range_error r); reflexivity.
  - simpl. now apply insert_subseteq.
  - simpl. etrans; [apply insert_subseteq, Hn|apply insert_subseteq, Ho].
  - exists o, z. repeat split.
    + destruct (objs h !! o) eqn:E; [|reflexivity].
      assert (objs h2 !! o = Some o0); [|congruence].
      simpl. rewrite lookup_insert_ne by congruence. exact E.
    + simpl. apply lookup_insert_eq.
    + exact Hz.
  - exact Hv.
Qed.

(** When [op] panics without writing, so does [checked op], and again
    nothing that existed before is touched. *)
Lemma checked_panic :
  (forall h0 z i j c,
      ints h0 !! z = Some c -> ints h0 !! i = Some a ->
      ints h0 !! j = Some b ->
      op (Some z) (Some i) (Some j) h0 = Panic h0) ->
  exists h', checked op u x h = Panic h' /\ preserves h h'.
Proof.
  intros Hop.
  destruct (value_of_inv _ _ _ Hu) as (ua & ui & -> & Hua & Hui).
  destruct (value_of_inv _ _ _ Hx) as (xa & xi & -> & Hxa & Hxi).
  set (z := fresh (dom (ints h))).
  set (n := fresh (dom (objs h))).
  set (h1 := Heap (<[z := 0]> (ints h)) (<[n := Some z]> (objs h))).
  assert (Hzu : z <> ui) by (eapply fresh_ne; eassumption).
  assert (Hzx : z <> xi) by (eapply fresh_ne; eassumption).
  assert (Hnu : n <> ua) by (eapply fresh_ne; eassumption).
  assert (Hnx : n <> xa) by (eapply fresh_ne; eassumption).
  assert (E1 : NewUint128 h = Ret (Some n) h1) by reflexivity.
  assert (E2 : field_Int (Some n) h1 = Ret (Some z) h1).
  { apply field_Int_run. simpl. apply lookup_insert_eq. }
  assert (E3 : field_Int (Some ua) h1 = Ret (Some ui) h1).
  { apply field_Int_run. simpl. now rewrite lookup_insert_ne. }
  assert (E4 : field_Int (Some xa) h1 = Ret (Some xi) h1).
  { apply field_Int_run. simpl. now rewrite lookup_insert_ne. }
  assert (E5 : op (Some z) (Some ui) (Some xi) h1 = Panic h1).
  { apply (Hop h1 z ui xi 0); simpl.
    - apply lookup_insert_eq.
    - now rewrite lookup_insert_ne.
    - now rewrite lookup_insert_ne. }
  exists h1. split.
  - unfold checked.
    rewrite (bind_ret _ _ _ _ _ E1), (bind_ret _ _ _ _ _ E2),
      (bind_ret _ _ _ _ _ E3), (bind_ret _ _ _ _ _ E4).
    now apply bind_panic.
  - split; simpl; apply insert_subseteq, fresh_lookup.
Qed.

End Checked.

Section BigOps.
Variables (h : heap) (z i j : positive) (c a b : Z).
Hypothesis Hz : ints h !! z = Some c.
Hypothesis Hi : ints h !! i = Some a.
Hypothesis Hj : ints h !! j = Some b.

Ltac run_big :=
  rewrite (bind_ret _ _ _ _ _ (load_int_run _ _ _ Hi)),
    (bind_ret _ _ _ _ _ (load_int_run _ _ _ Hj));
  try rewrite (bind_ret _ _ _ _ _ (store_int_run _ _ _ _ Hz));
  reflexivity.

Lemma big_Add_run :
  big.Add (Some z) (Some i) (Some j) h
  = Ret (Some z) (Heap (<[z := a + b]> (ints h)) (objs h)).
Proof. unfold big.Add. run_big. Qed.

Lemma big_Sub_run :
  big.Sub (Some z) (Some i) (Some j) h
  = Ret (Some z) (Heap (<[z := a - b]> (ints h)) (objs h)).
Proof. unfold big.Sub. run_big. Qed.

Lemma big_Mul_run :
  big.Mul (Some z) (Some i) (Some j) h
  = Ret (Some z) (Heap (<[z := a * b]> (ints h)) (objs h)).
Proof. unfold big.Mul. run_big. Qed.

Lemma big_Exp_run :
  big.Exp (Some z) (Some i) (Some j) h
  = Ret (Some z) (Heap (<[z := big.exp a b]> (ints h)) (objs h)).
Proof. unfold big.Exp. run_big. Qed.

Lemma big_Div_run :
  b <> 0 ->
  big.Div (Some z) (Some i) (Some j) h
  = Ret (Some z) (Heap (<[z := big.div a b]> (ints h)) (objs h)).
Proof.
  intros Hb. unfold big.Div.
  rewrite (bind_ret _ _ _ _ _ (load_int_run _ _ _ Hi)),
    (bind_ret _ _ _ _ _ (load_int_run _ _ _ Hj)).
  destruct (Z.eqb_spec b 0) as [|_]; [contradiction|].
  rewrite (bind_ret _ _ _ _ _ (store_int_run _ _ _ _ Hz)). reflexivity.
Qed.

Lemma big_Div_zero :
  b = 0 -> big.Div (Some z) (Some i) (Some j) h = Panic h.
Proof.
  intros ->. unfold big.Div.
  rewrite (bind_ret _ _ _ _ _ (load_int_run _ _ _ Hi)),
    (bind_ret _ _ _ _ _ (load_int_run _ _ _ Hj)).
  reflexivity.
Qed.

End BigOps.

(** ** The fixed-size codec *)

(** The 16 bytes [ToFixedSizeBytes] produces for a value in range. *)
Lemma ToFixedSizeBytes_run (h : heap) (u : option positive) (v : Z) :
  value_of h u = Some v -> in_range v ->
  ToFixedSizeBytes u h
  = Ret (replicate (16 - length (big.bytes v)) x00 ++ big.bytes v, None) h.
Proof.
  intros Hu Hv. pose proof (bytes_length v Hv) as Hl.
  destruct (value_of_inv _ _ _ Hu) as (a & i & -> & Ha & Hi).
  unfold ToFixedSizeBytes.
  rewrite (bind_ret _ _ _ _ _ (Validate_run _ _ _ Hu)),
    (range_error_ok v Hv),
    (bind_ret _ _ _ _ _ (field_Int_run _ _ _ Ha)).
  rewrite (bind_ret _ _ h h (big.bytes v)).
  2:{ unfold big.Bytes.
      now rewrite (bind_ret _ _ _ _ _ (load_int_run _ _ _ Hi)). }
  unfold len, Uint128Bytes.
  destruct (Z.eqb_spec (Z.of_nat (length (big.bytes v))) 0) as [E|E].
  - destruct (big.bytes v); [reflexivity|simpl in E; lia].
  - destruct (Z.ltb_spec (16 - Z.of_nat (length (big.bytes v))) 16);
      [|lia].
    destruct (Z.ltb_spec (16 - Z.of_nat (length (big.bytes v))) 0);
      [lia|].
    unfold mret, M_ret. f_equal. f_equal.
    apply (fixed_layout (big.bytes v)). lia.
Qed.

Lemma ToFixedSizeBytes_invalid (h : heap) (u : option positive) (v : Z)
    (e : error) :
  value_of h u = Some v -> range_error v = Some e ->
  ToFixedSizeBytes u h = Ret (zero16, Some e) h.
Proof.
  intros Hu He. unfold ToFixedSizeBytes.
  now rewrite (bind_ret _ _ _ _ _ (Validate_run _ _ _ Hu)), He.
Qed.

Lemma padded_length (v : Z) :
  in_range v ->
  length (replicate (16 - length (big.bytes v)) x00 ++ big.bytes v) = 16%nat.
Proof.
  intros Hv. pose proof (bytes_length v Hv).
  rewrite length_app, length_replicate. lia.
Qed.

Lemma padded_value (v : Z) :
  0 <= v ->
  big.of_bytes (replicate (16 - length (big.bytes v)) x00 ++ big.bytes v) = v.
Proof.
  intros Hv. rewrite of_bytes_zeros_app, of_bytes_bytes. lia.
Qed.

Lemma FromFixedSizeByteSlice_bad_size (h : heap) (u : option positive)
    (bytes : list byte) :
  length bytes <> 16%nat ->
  FromFixedSizeByteSlice u bytes h
  = Ret (None, Some ErrUint128InvalidBytesSize) h.
Proof.
  intros Hl. unfold FromFixedSizeByteSlice, len, Uint128Bytes.
  destruct (Z.eqb_spec (Z.of_nat (length bytes)) 16); [lia|reflexivity].
Qed.

(** Decoding 16 bytes stores their big-endian value in the receiver's own
    [big.Int] and returns the receiver. *)
Lemma FromFixedSizeByteSlice_run (h : heap) (a i : positive) (w : Z)
    (bytes : list byte) :
  objs h !! a = Some (Some i) -> ints h !! i = Some w ->
  length bytes = 16%nat ->
  FromFixedSizeByteSlice (Some a) bytes h
  = Ret (Some a, None)
        (Heap (<[i := big.of_bytes bytes]> (ints h)) (objs h)).
Proof.
  intros Ha Hi Hl. unfold FromFixedSizeByteSlice, len, Uint128Bytes.
  rewrite Hl. change (negb (Z.of_nat 16 =? 16)) with false. cbv iota.
  change (Z.to_nat 16) with 16%nat.
  destruct (skip_zeros_spec bytes 16 0%nat) as (j & -> & Hj & Hval); [lia|].
  rewrite drop_0 in Hval.
  destruct (Z.ltb_spec (Z.of_nat j) 16) as [Hlt|Hge].
  - erewrite bind_ret; [reflexivity|].
    rewrite (bind_ret _ _ _ _ _ (field_Int_run _ _ _ Ha)).
    unfold big.SetBytes.
    rewrite (bind_ret _ _ _ _ _ (store_int_run _ _ _ _ Hi)), Hval.
    reflexivity.
  - assert (j = 16%nat) as -> by lia.
    rewrite <- Hl, drop_all in Hval. change (big.of_bytes []) with 0 in Hval.
    erewrite bind_ret; [reflexivity|].
    rewrite (bind_ret _ _ _ _ _ (field_Int_run _ _ _ Ha)).
    unfold big.SetUint64.
    rewrite (bind_ret _ _ _ _ _ (store_int_run _ _ _ _ Hi)), <- Hval.
    reflexivity.
Qed.

Lemma FromFixedSizeByteSlice_value (h : heap) (u : option positive) (w : Z)
    (bytes : list byte) :
  value_of h u = Some w -> length bytes = 16%nat ->
  exists h',
    FromFixedSizeByteSlice u bytes h = Ret (u, None) h' /\
    value_of h' u = Some (big.of_bytes bytes) /\
    objs h' = objs h.
Proof.
  intros Hu Hl. destruct (value_of_inv _ _ _ Hu) as (a & i & -> & Ha & Hi).
  eexists. split; [now apply (FromFixedSizeByteSlice_run h a i w)|].
  split; [|reflexivity].
  apply value_of_intro with i; simpl; [exact Ha|apply lookup_insert_eq].
Qed.

Lemma NewUint128_run (h : heap) :
  exists h' a i,
    NewUint128 h = Ret (Some a) h' /\
    objs h' !! a = Some (Some i) /\ ints h' !! i = Some 0 /\
    preserves h h' /\ objs h !! a = None /\ ints h !! i = None.
Proof.
  exists (Heap (<[fresh (dom (ints h)) := 0]> (ints h))
               (<[fresh (dom (objs h)) := Some (fresh (dom (ints h)))]>
                  (objs h))),
    (fresh (dom (objs h))), (fresh (dom (ints h))).
  repeat split; simpl;
    auto using lookup_insert_eq, fresh_lookup, insert_subseteq.
  - apply lookup_insert_eq.
  - apply lookup_insert_eq.
  - apply insert_subseteq, fresh_lookup.
  - apply insert_subseteq, fresh_lookup.
  - apply fresh_lookup.
  - apply fresh_lookup.
Qed.

Lemma range_error_cases (v : Z) :
  range_error v
  = if v <? 0 then Some ErrUint128Underflow
    else if 128 <? big.bitlen v then Some ErrUint128Overflow
    else None.
Proof.
  destruct (Z.ltb_spec v 0) as [Hn|Hn]; [now apply range_error_neg|].
  unfold range_error, Uint128Bits.
  destruct (Z.ltb_spec (Z.sgn v) 0) as [H'|_].
  { pose proof (Z.sgn_nonneg v). lia. }
  rewrite Z.gtb_ltb. reflexivity.
Qed.

Lemma NewUint128FromFixedSizeByteSlice_run (h : heap) (bytes : list byte) :
  length bytes = 16%nat ->
  exists h' p,
    NewUint128FromFixedSizeByteSlice bytes h = Ret (p, None) h' /\
    value_of h' p = Some (big.of_bytes bytes).
Proof.
  intros Hl.
  destruct (NewUint128_run h) as (h1 & a & i & E & Ha & Hi & _).
  exists (Heap (<[i := big.of_bytes bytes]> (ints h1)) (objs h1)), (Some a).
  split.
  - unfold NewUint128FromFixedSizeByteSlice.
    rewrite (bind_ret _ _ _ _ _ E).
    now apply (FromFixedSizeByteSlice_run h1 a i 0).
  - apply value_of_intro with i; simpl; [exact Ha|apply lookup_insert_eq].
Qed.

Lemma NewUint128FromFixedSizeBytes_run (h : heap) (bytes : list byte) :
  length bytes = 16%nat ->
  exists h' p,
    NewUint128FromFixedSizeBytes bytes h = Ret p h' /\
    value_of h' p = Some (big.of_bytes bytes).
Proof.
  intros Hl.
  destruct (NewUint128_run h) as (h1 & a & i & E & Ha & Hi & _).
  exists (Heap (<[i := big.of_bytes bytes]> (ints h1)) (objs h1)), (Some a).
  split.
  - unfold NewUint128FromFixedSizeBytes, FromFixedSizeBytes.
    rewrite (bind_ret _ _ _ _ _ E).
    now rewrite (bind_ret _ _ _ _ _
                   (FromFixedSizeByteSlice_run h1 a i 0 bytes Ha Hi Hl)).
  - apply value_of_intro with i; simpl; [exact Ha|apply lookup_insert_eq].
Qed.

(** ** The fixed-size codec: round trip, encoder, decoder *)

(** C1: for every value [v] in [0, 2^128-1], [ToFixedSizeBytes] succeeds
    with exactly 16 bytes, and decoding those bytes, into any live receiver
    with [FromFixedSizeByteSlice] or into a new value with
    [NewUint128FromFixedSizeByteSlice], succeeds with a [Uint128] that
    holds [v]. *)
Theorem fixed_bytes_roundtrip (h : heap) (u : option positive) (v : Z) :
  value_of h u = Some v -> in_range v ->
  exists bs,
    ToFixedSizeBytes u h = Ret (bs, None) h /\
    length bs = 16%nat /\
    (forall h1 r w, value_of h1 r = Some w ->
       exists h2, FromFixedSizeByteSlice r bs h1 = Ret (r, None) h2 /\
                  value_of h2 r = Some v) /\
    (forall h1,
       exists h2 p, NewUint128FromFixedSizeByteSlice bs h1 = Ret (p, None) h2 /\
                    value_of h2 p = Some v).
Proof.
  intros Hu Hv.
  exists (replicate (16 - length (big.bytes v)) x00 ++ big.bytes v).
  split; [exact (ToFixedSizeBytes_run h u v Hu Hv)|].
  pose proof (padded_length v Hv) as Hl.
  split; [exact Hl|]. split.
  - intros h1 r w Hr.
    destruct (FromFixedSizeByteSlice_value h1 r w _ Hr Hl) as (h2 & E & Hv2 & _).
    exists h2. split; [exact E|].
    rewrite Hv2, padded_value by (destruct Hv; lia). reflexivity.
  - intros h1.
    destruct (NewUint128FromFixedSizeByteSlice_run h1 _ Hl) as (h2 & p & E & Hp).
    exists h2, p. split; [exact E|].
    rewrite Hp, padded_value by (destruct Hv; lia). reflexivity.
Qed.

Lemma fixed_bytes_roundtrip_witness :
  exists bs,
    ToFixedSizeBytes (Some 1%positive) (heap1 (2 ^ 128 - 1))
    = Ret (bs, None) (heap1 (2 ^ 128 - 1)) /\
    length bs = 16%nat /\
    (forall h1 r w, value_of h1 r = Some w ->
       exists h2, FromFixedSizeByteSlice r bs h1 = Ret (r, None) h2 /\
                  value_of h2 r = Some (2 ^ 128 - 1)) /\
    (forall h1,
       exists h2 p, NewUint128FromFixedSizeByteSlice bs h1 = Ret (p, None) h2 /\
                    value_of h2 p = Some (2 ^ 128 - 1)).
Proof.
  apply (fixed_bytes_roundtrip (heap1 (2 ^ 128 - 1)) (Some 1%positive)).
  - reflexivity.
  - unfold in_range. lia.
Defined.

(** C2, as the code has it: [ToFixedSizeBytes] validates first.  A
    negative value gives [ErrUint128Underflow], whatever its magnitude; a
    non-negative value whose bit length is above 128 gives
    [ErrUint128Overflow]; in both cases the array returned is the untouched
    zero array.  Otherwise the result is the 16-byte big-endian
    representation: the significant bytes preceded by zero bytes, the only
    16-byte string whose big-endian value is the receiver's, and 16 zero
    bytes for the value 0. *)
Theorem ToFixedSizeBytes_spec (h : heap) (u : option positive) (v : Z) :
  value_of h u = Some v ->
  exists bs err,
    ToFixedSizeBytes u h = Ret (bs, err) h /\
    if v <? 0 then err = Some ErrUint128Underflow /\ bs = zero16
    else if 128 <? big.bitlen v then
      err = Some ErrUint128Overflow /\ bs = zero16
    else
      err = None /\
      length bs = 16%nat /\
      bs = replicate (16 - length (big.bytes v)) x00 ++ big.bytes v /\
      big.of_bytes bs = v /\
      (forall cs, length cs = 16%nat -> big.of_bytes cs = v -> cs = bs) /\
      (v = 0 -> bs = zero16).
Proof.
  intros Hu. pose proof (range_error_cases v) as Hc.
  destruct (Z.ltb_spec v 0) as [Hn|Hn].
  { exists zero16, (Some ErrUint128Underflow). split; [|now split].
    apply ToFixedSizeBytes_invalid with v; assumption. }
  destruct (Z.ltb_spec 128 (big.bitlen v)) as [Hb|Hb].
  { exists zero16, (Some ErrUint128Overflow). split; [|now split].
    apply ToFixedSizeBytes_invalid with v; assumption. }
  assert (Hv : in_range v) by now apply range_error_None.
  exists (replicate (16 - length (big.bytes v)) x00 ++ big.bytes v), None.
  split; [exact (ToFixedSizeBytes_run h u v Hu Hv)|].
  pose proof (padded_length v Hv) as Hl.
  pose proof (padded_value v Hn) as Hval.
  repeat split; try assumption.
  - intros cs Hcs Hcv. apply of_bytes_inj; congruence.
  - intros ->. reflexivity.
Qed.

Lemma ToFixedSizeBytes_spec_witness :
  exists bs err,
    ToFixedSizeBytes (Some 1%positive) (heap1 258) = Ret (bs, err) (heap1 258) /\
    err = None /\
    length bs = 16%nat /\
    bs = replicate (16 - length (big.bytes 258)) x00 ++ big.bytes 258 /\
    big.of_bytes bs = 258 /\
    (forall cs, length cs = 16%nat -> big.of_bytes cs = 258 -> cs = bs) /\
    (258 = 0 -> bs = zero16).
Proof.
  apply (ToFixedSizeBytes_spec (heap1 258) (Some 1%positive) 258).
  reflexivity.
Defined.

(** C2 as stated fails on a negative value of large magnitude: -2^129 has
    bit length 130, yet [ToFixedSizeBytes] fails with an underflow, not an
    overflow. *)
Lemma ToFixedSizeBytes_negative_wide_counterexample :
  ~ (128 < big.bitlen (- 2 ^ 129) ->
     exists bs h',
       ToFixedSizeBytes (Some 1%positive) (heap1 (- 2 ^ 129))
       = Ret (bs, Some ErrUint128Overflow) h').
Proof.
  intros H. destruct (H eq_refl) as (bs & h' & E).
  rewrite (ToFixedSizeBytes_invalid _ _ (- 2 ^ 129) ErrUint128Underflow)
    in E by reflexivity.
  discriminate E.
Qed.

(** C3: on a live receiver, [FromFixedSizeByteSlice] answers
    [ErrUint128InvalidBytesSize] if and only if the slice is not 16 bytes
    long.  On 16 bytes it returns the receiver, now holding the big-endian
    value of the bytes, which is always in range; so do the array entry
    points [FromFixedSizeBytes] and [NewUint128FromFixedSizeBytes], which
    have no error result at all.  Sixteen zero bytes denote 0. *)
Theorem FromFixedSizeByteSlice_spec (h : heap) (u : option positive) (w : Z)
    (bytes : list byte) :
  value_of h u = Some w ->
  (FromFixedSizeByteSlice u bytes h
   = Ret (None, Some ErrUint128InvalidBytesSize) h
   <-> length bytes <> 16%nat) /\
  (length bytes = 16%nat ->
   (exists h', FromFixedSizeByteSlice u bytes h = Ret (u, None) h' /\
               value_of h' u = Some (big.of_bytes bytes)) /\
   (exists h', FromFixedSizeBytes u bytes h = Ret u h' /\
               value_of h' u = Some (big.of_bytes bytes)) /\
   (exists h' p, NewUint128FromFixedSizeBytes bytes h = Ret p h' /\
                 value_of h' p = Some (big.of_bytes bytes)) /\
   in_range (big.of_bytes bytes)) /\
  big.of_bytes zero16 = 0.
Proof.
  intros Hu. split; [|split; [|reflexivity]].
  - split; [|apply FromFixedSizeByteSlice_bad_size].
    intros E Hl.
    destruct (FromFixedSizeByteSlice_value h u w bytes Hu Hl) as (h' & E' & _).
    rewrite E in E'. destruct u; [discriminate|].
    discriminate Hu.
  - intros Hl.
    destruct (FromFixedSizeByteSlice_value h u w bytes Hu Hl)
      as (h' & E & Hv & _).
    split; [now exists h'|]. split; [|split].
    + exists h'. split; [|exact Hv].
      unfold FromFixedSizeBytes. now rewrite (bind_ret _ _ _ _ _ E).
    + now apply NewUint128FromFixedSizeBytes_run.
    + pose proof (of_bytes_range bytes) as Hr. rewrite Hl in Hr.
      change (256 ^ Z.of_nat 16) with (2 ^ 128) in Hr.
      unfold in_range. lia.
Qed.

Lemma FromFixedSizeByteSlice_spec_witness :
  exists h', FromFixedSizeByteSlice (Some 1%positive) sample16 (heap1 7)
             = Ret (Some 1%positive, None) h' /\
             value_of h' (Some 1%positive) = Some (big.of_bytes sample16).
Proof.
  destruct (FromFixedSizeByteSlice_spec (heap1 7) (Some 1%positive) 7 sample16)
    as (_ & H & _).
  - reflexivity.
  - apply H. reflexivity.
Defined.

(** C10: when the slice is not 16 bytes long, [FromFixedSizeByteSlice]
    returns a nil pointer and [ErrUint128InvalidBytesSize] and leaves the
    heap exactly as it was: no store happens before the length test, so the
    receiver (and everything else) denotes what it did before the call. *)
Theorem FromFixedSizeByteSlice_bad_size_frame (h : heap)
    (u : option positive) (bytes : list byte) :
  length bytes <> 16%nat ->
  exists h',
    FromFixedSizeByteSlice u bytes h
    = Ret (None, Some ErrUint128InvalidBytesSize) h' /\
    h' = h /\ value_of h' u = value_of h u.
Proof.
  intros Hl. exists h. split; [|split; reflexivity].
  unfold FromFixedSizeByteSlice, len, Uint128Bytes.
  destruct (Z.eqb_spec (Z.of_nat (length bytes)) 16) as [E|_];
    [lia|reflexivity].
Qed.

Lemma FromFixedSizeByteSlice_bad_size_frame_witness :
  exists h',
    FromFixedSizeByteSlice (Some 1%positive) [x01; x02; x03] (heap1 7)
    = Ret (None, Some ErrUint128InvalidBytesSize) h' /\
    h' = heap1 7 /\
    value_of h' (Some 1%positive) = value_of (heap1 7) (Some 1%positive).
Proof.
  apply (FromFixedSizeByteSlice_bad_size_frame (heap1 7) (Some 1%positive)
           [x01; x02; x03]).
  simpl. lia.
Defined.

(** ** Validation and construction from a [big.Int] *)

Lemma NewUint128FromBigInt_run (h : heap) (i : positive) (v : Z) :
  ints h !! i = Some v ->
  exists h' o,
    NewUint128FromBigInt (Some i) h
    = Ret (match range_error v with
           | Some e => (None, Some e)
           | None => (Some o, None)
           end) h' /\
    objs h' !! o = Some (Some i) /\ ints h' = ints h.
Proof.
  intros Hi.
  set (o := fresh (dom (objs h))).
  set (h' := Heap (ints h) (<[o := Some i]> (objs h))).
  assert (Ho : objs h' !! o = Some (Some i)) by apply lookup_insert_eq.
  assert (Hv : value_of h' (Some o) = Some v) by now apply value_of_intro with i.
  exists h', o. split; [|now split].
  unfold NewUint128FromBigInt.
  assert (E : alloc_obj (Some i) h = Ret (Some o) h') by reflexivity.
  rewrite (bind_ret _ _ _ _ _ E), (bind_ret _ _ _ _ _ (Validate_run _ _ _ Hv)).
  destruct (range_error v); reflexivity.
Qed.

(** C4, as the code has it: [Validate] returns no error if and only if the
    value is non-negative and its bit length is at most 128; it returns
    [ErrUint128Underflow] for every negative value and [ErrUint128Overflow]
    for every non-negative value whose bit length exceeds 128 (the sign is
    tested first, so a negative value is an underflow whatever its
    magnitude).  [NewUint128FromBigInt] wraps the given [big.Int] and answers
    the same way, hence underflow for -1 (bit length 1), overflow for 2^128
    (bit length 129) and success, with that very integer, for 2^128-1 (bit
    length 128). *)
Theorem Validate_spec (h : heap) (u : option positive) (i : positive)
    (v : Z) :
  ints h !! i = Some v ->
  (value_of h u = Some v ->
   exists err,
     Validate u h = Ret err h /\
     (err = None <-> 0 <= v /\ big.bitlen v <= 128) /\
     (v < 0 -> err = Some ErrUint128Underflow) /\
     (0 <= v -> 128 < big.bitlen v -> err = Some ErrUint128Overflow)) /\
  (exists h' p err,
     NewUint128FromBigInt (Some i) h = Ret (p, err) h' /\
     (v < 0 -> p = None /\ err = Some ErrUint128Underflow) /\
     (0 <= v -> 128 < big.bitlen v ->
      p = None /\ err = Some ErrUint128Overflow) /\
     (0 <= v -> big.bitlen v <= 128 ->
      err = None /\ value_of h' p = Some v)) /\
  big.bitlen (-1) = 1 /\ big.bitlen (2 ^ 128) = 129 /\
  big.bitlen (2 ^ 128 - 1) = 128.
Proof.
  intros Hi. pose proof (range_error_cases v) as Hc.
  split; [|split; [|now repeat split]].
  - intros Hu. exists (range_error v).
    split; [now apply Validate_run|]. rewrite Hc.
    destruct (Z.ltb_spec v 0); [|destruct (Z.ltb_spec 128 (big.bitlen v))].
    + repeat split; try lia; try discriminate; reflexivity.
    + repeat split; try lia; try discriminate; reflexivity.
    + repeat split; try lia; try discriminate.
  - destruct (NewUint128FromBigInt_run h i v Hi) as (h' & o & E & Ho & Hints).
    rewrite Hc in E.
    destruct (Z.ltb_spec v 0); [|destruct (Z.ltb_spec 128 (big.bitlen v))].
    + exists h', None, (Some ErrUint128Underflow).
      repeat split; try lia; exact E.
    + exists h', None, (Some ErrUint128Overflow).
      repeat split; try lia; exact E.
    + exists h', (Some o), None.
      repeat split; try lia; [exact E|].
      apply value_of_intro with i; [exact Ho|]. now rewrite Hints.
Qed.

Lemma Validate_spec_witness :
  exists h' p err,
    NewUint128FromBigInt (Some 1%positive) (heap1 (2 ^ 128)) = Ret (p, err) h' /\
    p = None /\ err = Some ErrUint128Overflow.
Proof.
  destruct (Validate_spec (heap1 (2 ^ 128)) (Some 1%positive) 1%positive
              (2 ^ 128))
    as (_ & (h' & p & err & E & _ & H & _) & _).
  - reflexivity.
  - exists h', p, err. split; [exact E|]. apply H.
    + lia.
    + reflexivity.
Defined.

(** C4 as stated fails on a negative value of large magnitude: -2^129 has
    bit length 130, yet [Validate] reports an underflow, not an overflow. *)
Lemma Validate_negative_wide_counterexample :
  ~ (128 < big.bitlen (- 2 ^ 129) ->
     Validate (Some 1%positive) (heap1 (- 2 ^ 129))
     = Ret (Some ErrUint128Overflow) (heap1 (- 2 ^ 129))).
Proof.
  intros H.
  assert (E : Validate (Some 1%positive) (heap1 (- 2 ^ 129))
              = Ret (Some ErrUint128Underflow) (heap1 (- 2 ^ 129))).
  { rewrite (Validate_run _ _ (- 2 ^ 129)); reflexivity. }
  rewrite E in H. specialize (H eq_refl). discriminate H.
Qed.

(** ** Arithmetic *)

Section Arith.
Variables (h : heap) (u x : option positive) (a b : Z).
Hypothesis Hu : value_of h u = Some a.
Hypothesis Hx : value_of h x = Some b.

Lemma run_arith_returns (o : arith) :
  (o = OpDiv -> b <> 0) ->
  exists h' p,
    run_arith o u x h
    = Ret (match range_error (exact o a b) with
           | Some e => (None, Some e)
           | None => (p, None)
           end) h'
    /\ preserves h h' /\ fresh_in h h' p
    /\ value_of h' p = Some (exact o a b).
Proof.
  intros Hb. destruct o; simpl run_arith; simpl exact;
    apply (checked_run _ h u x a b Hu Hx); intros.
  - now apply big_Add_run with c.
  - now apply big_Sub_run with c.
  - now apply big_Mul_run with c.
  - apply big_Div_run with c; auto.
  - now apply big_Exp_run with c.
Qed.

Lemma run_arith_yields (o : arith) :
  (o = OpDiv -> b <> 0) ->
  yields (run_arith o u x) h
    (match range_error (exact o a b) with
     | Some e => inr e
     | None => inl (exact o a b)
     end).
Proof.
  intros Hb.
  destruct (run_arith_returns o Hb) as (h' & p & E & _ & _ & Hv).
  destruct (range_error (exact o a b)) as [e|].
  - exists h', None, (Some e). now split.
  - exists h', p, None. now split.
Qed.

Lemma Div_zero_panics :
  b = 0 -> exists h', Div u x h = Panic h' /\ preserves h h'.
Proof.
  intros Hb. apply (checked_panic _ h u x a b Hu Hx). intros.
  eapply big_Div_zero; eassumption.
Qed.

End Arith.

Lemma fresh_in_ne (h h' : heap) (p u : option positive) (a : Z) :
  fresh_in h h' p -> value_of h u = Some a -> p <> u.
Proof.
  intros (o & z & -> & Ho & _) Hu E. subst u.
  apply value_of_inv in Hu as (a' & i & Heq & Ha & _).
  injection Heq as <-. congruence.
Qed.

Lemma div_quot (a b : Z) : 0 <= a -> 0 < b -> big.div a b = Z.quot a b.
Proof.
  intros Ha Hb. unfold big.div.
  pose proof (Z.rem_nonneg a b ltac:(lia) Ha).
  destruct (Z.ltb_spec (Z.rem a b) 0); [lia|reflexivity].
Qed.

Lemma quot_range (a b : Z) :
  in_range a -> 0 < b -> in_range (Z.quot a b).
Proof.
  unfold in_range. intros [Ha Hmax] Hb.
  rewrite Z.quot_div_nonneg by lia. split.
  - apply Z.div_pos; lia.
  - enough (a / b <= a) by lia.
    apply Z.div_le_upper_bound; [lia|]. nia.
Qed.

Lemma exp_pow (a b : Z) : 0 <= b -> big.exp a b = a ^ b.
Proof.
  intros Hb. unfold big.exp.
  destruct (Z.leb_spec b 0); [|reflexivity].
  replace b with 0 by lia. reflexivity.
Qed.

(** C5: on valid operands, [Add], [Sub] and [Mul] compute the exact sum,
    difference and product and then check the range: [Sub] answers
    [ErrUint128Underflow] exactly when [u < x], [Add] and [Mul] answer
    [ErrUint128Overflow] exactly when the exact result is at least 2^128,
    and in every other case the value returned is the exact result. *)
Theorem Add_Sub_Mul_exact (h : heap) (u x : option positive) (a b : Z) :
  value_of h u = Some a -> value_of h x = Some b ->
  in_range a -> in_range b ->
  yields (Add u x) h
    (if a + b <? 2 ^ 128 then inl (a + b) else inr ErrUint128Overflow) /\
  yields (Sub u x) h
    (if a <? b then inr ErrUint128Underflow else inl (a - b)) /\
  yields (Mul u x) h
    (if a * b <? 2 ^ 128 then inl (a * b) else inr ErrUint128Overflow).
Proof.
  intros Hu Hx [Ha Ha'] [Hb Hb'].
  pose proof (run_arith_yields h u x a b Hu Hx OpAdd ltac:(discriminate)) as HA.
  pose proof (run_arith_yields h u x a b Hu Hx OpSub ltac:(discriminate)) as HS.
  pose proof (run_arith_yields h u x a b Hu Hx OpMul ltac:(discriminate)) as HM.
  simpl in HA, HS, HM. repeat split.
  - destruct (Z.ltb_spec (a + b) (2 ^ 128)).
    + rewrite range_error_ok in HA by (unfold in_range; lia). exact HA.
    + rewrite range_error_big in HA by lia. exact HA.
  - destruct (Z.ltb_spec a b).
    + rewrite range_error_neg in HS by lia. exact HS.
    + rewrite range_error_ok in HS by (unfold in_range; lia). exact HS.
  - destruct (Z.ltb_spec (a * b) (2 ^ 128)).
    + rewrite range_error_ok in HM by (unfold in_range; nia). exact HM.
    + rewrite range_error_big in HM by lia. exact HM.
Qed.

Lemma Add_Sub_Mul_exact_witness :
  yields (Add (Some 1%positive) (Some 2%positive)) (heap2 (2 ^ 128 - 1) 1)
    (inr ErrUint128Overflow) /\
  yields (Sub (Some 1%positive) (Some 2%positive)) (heap2 (2 ^ 128 - 1) 1)
    (inl (2 ^ 128 - 2)) /\
  yields (Mul (Some 1%positive) (Some 2%positive)) (heap2 (2 ^ 128 - 1) 1)
    (inl (2 ^ 128 - 1)).
Proof.
  apply (Add_Sub_Mul_exact (heap2 (2 ^ 128 - 1) 1) (Some 1%positive)
           (Some 2%positive) (2 ^ 128 - 1) 1).
  - reflexivity.
  - reflexivity.
  - unfold in_range. lia.
  - unfold in_range. lia.
Defined.

(** C6: on valid operands with a nonzero divisor, [Div] returns, with a nil
    error, the quotient truncated toward zero, which is itself in range. *)
Theorem Div_truncates (h : heap) (u x : option positive) (a b : Z) :
  value_of h u = Some a -> value_of h x = Some b ->
  in_range a -> in_range b -> b <> 0 ->
  yields (Div u x) h (inl (Z.quot a b)) /\ in_range (Z.quot a b).
Proof.
  intros Hu Hx Ha Hb Hne.
  assert (Hpos : 0 < b) by (destruct Hb; lia).
  pose proof (quot_range a b Ha Hpos) as Hq. split; [|exact Hq].
  pose proof (run_arith_yields h u x a b Hu Hx OpDiv (fun _ => Hne)) as HD.
  simpl in HD. rewrite div_quot in HD by (destruct Ha; lia).
  now rewrite range_error_ok in HD.
Qed.

Lemma Div_truncates_witness :
  yields (Div (Some 1%positive) (Some 2%positive)) (heap2 10 3) (inl 3) /\
  in_range 3.
Proof.
  apply (Div_truncates (heap2 10 3) (Some 1%positive) (Some 2%positive) 10 3).
  - reflexivity.
  - reflexivity.
  - unfold in_range. lia.
  - unfold in_range. lia.
  - lia.
Defined.

(** C7: on valid operands, [Exp] computes the exact power [u^x], with no
    modulus, and then checks the range: the power itself when it is at most
    2^128-1, [ErrUint128Overflow] when it is 2^128 or more. *)
Theorem Exp_exact (h : heap) (u x : option positive) (a b : Z) :
  value_of h u = Some a -> value_of h x = Some b ->
  in_range a -> in_range b ->
  yields (Exp u x) h
    (if a ^ b <? 2 ^ 128 then inl (a ^ b) else inr ErrUint128Overflow).
Proof.
  intros Hu Hx [Ha Ha'] [Hb Hb'].
  pose proof (run_arith_yields h u x a b Hu Hx OpExp ltac:(discriminate)) as HE.
  simpl in HE. rewrite exp_pow in HE by lia.
  pose proof (Z.pow_nonneg a b Ha).
  destruct (Z.ltb_spec (a ^ b) (2 ^ 128)).
  - rewrite range_error_ok in HE by (unfold in_range; lia). exact HE.
  - rewrite range_error_big in HE by lia. exact HE.
Qed.

Lemma Exp_exact_witness :
  yields (Exp (Some 1%positive) (Some 2%positive)) (heap2 2 127)
    (inl (2 ^ 127)).
Proof.
  apply (Exp_exact (heap2 2 127) (Some 1%positive) (Some 2%positive) 2 127).
  - reflexivity.
  - reflexivity.
  - unfold in_range. lia.
  - unfold in_range. lia.
Defined.

(** C9, as the code has it: on valid operands, with a nonzero divisor for
    [Div], every arithmetic method returns, and it works on a new [big.Int]
    inside a new [Uint128] instead of updating the receiver: each object
    that existed before the call is as it was, so the receiver and the
    operand (which may be the same pointer) still denote their values,
    whether the call succeeds or returns an error.  The error is nil exactly
    when the integer computed is in range; then the pointer returned is to a
    struct, and through it to a [big.Int], neither of which existed before
    (so it is neither the receiver nor the operand), and it holds the
    integer computed; with an error the pointer returned is nil.  [Div] by
    zero does not return: it panics, again with every earlier object
    intact. *)
Theorem arithmetic_frame (o : arith) (h : heap) (u x : option positive)
    (a b : Z) :
  value_of h u = Some a -> value_of h x = Some b ->
  in_range a -> in_range b ->
  ((o = OpDiv -> b <> 0) ->
   exists h' p err,
     run_arith o u x h = Ret (p, err) h' /\
     preserves h h' /\
     value_of h' u = Some a /\ value_of h' x = Some b /\
     (err = None <-> in_range (exact o a b)) /\
     match err with
     | None => fresh_in h h' p /\ p <> u /\ p <> x /\
               value_of h' p = Some (exact o a b)
     | Some _ => p = None
     end) /\
  (o = OpDiv -> b = 0 ->
   exists h',
     run_arith o u x h = Panic h' /\
     preserves h h' /\
     value_of h' u = Some a /\ value_of h' x = Some b).
Proof.
  intros Hu Hx _ _. split.
  - intros Hb.
    destruct (run_arith_returns h u x a b Hu Hx o Hb)
      as (h' & p & E & Hp & Hf & Hv).
    destruct (range_error (exact o a b)) as [e|] eqn:He.
    + exists h', None, (Some e). split; [exact E|]. split; [exact Hp|].
      split; [eapply preserves_value_of; eassumption|].
      split; [eapply preserves_value_of; eassumption|].
      split; [|reflexivity]. split; [discriminate|].
      intros Hr. rewrite (range_error_ok _ Hr) in He. discriminate.
    + exists h', p, None. split; [exact E|]. split; [exact Hp|].
      split; [eapply preserves_value_of; eassumption|].
      split; [eapply preserves_value_of; eassumption|].
      split; [split; [intros _; now apply range_error_None|reflexivity]|].
      split; [exact Hf|].
      split; [eapply fresh_in_ne; eassumption|].
      split; [eapply fresh_in_ne; eassumption|exact Hv].
  - intros -> Hb.
    destruct (Div_zero_panics h u x a b Hu Hx Hb) as (h' & E & Hp).
    exists h'. split; [exact E|]. split; [exact Hp|].
    split; eapply preserves_value_of; eassumption.
Qed.

Lemma arithmetic_frame_witness :
  exists h' p err,
    run_arith OpSub (Some 1%positive) (Some 1%positive) (heap1 9)
    = Ret (p, err) h' /\
    preserves (heap1 9) h' /\
    value_of h' (Some 1%positive) = Some 9 /\
    value_of h' (Some 1%positive) = Some 9 /\
    (err = None <-> in_range (exact OpSub 9 9)) /\
    match err with
    | None => fresh_in (heap1 9) h' p /\
              p <> Some 1%positive /\ p <> Some 1%positive /\
              value_of h' p = Some (exact OpSub 9 9)
    | Some _ => p = None
    end.
Proof.
  destruct (arithmetic_frame OpSub (heap1 9) (Some 1%positive)
              (Some 1%positive) 9 9) as [H _].
  - reflexivity.
  - reflexivity.
  - unfold in_range. lia.
  - unfold in_range. lia.
  - apply H. discriminate.
Defined.

(** C9 as stated fails for [Div] on the valid operands 10 and 0: the call
    does not return at all. *)
Lemma Div_zero_counterexample :
  ~ (in_range 10 -> in_range 0 ->
     exists p err h',
       Div (Some 1%positive) (Some 2%positive) (heap2 10 0)
       = Ret (p, err) h').
Proof.
  intros H. destruct H as (p & err & h' & E).
  - unfold in_range. lia.
  - unfold in_range. lia.
  - destruct (Div_zero_panics (heap2 10 0) (Some 1%positive)
                (Some 2%positive) 10 0 eq_refl eq_refl eq_refl)
      as (h'' & E' & _).
    rewrite E' in E. discriminate E.
Qed.

(** ** Decimal text *)

Lemma digit_cases (d : Z) :
  0 <= d < 10 ->
  d = 0 \/ d = 1 \/ d = 2 \/ d = 3 \/ d = 4 \/
  d = 5 \/ d = 6 \/ d = 7 \/ d = 8 \/ d = 9.
Proof. lia. Qed.

Lemma char_digit_digit_char (d : Z) :
  0 <= d < 10 -> char_digit (digit_char d) = Some d.
Proof.
  intros Hd. destruct (digit_cases d Hd) as [->|[->|[->|[->|[->|[->|[->|[->|[->| ->]]]]]]]]];
    reflexivity.
Qed.

Lemma digit_char_not_sign (d : Z) :
  0 <= d < 10 -> digit_char d <> "-"%char /\ digit_char d <> "+"%char.
Proof.
  intros Hd. destruct (digit_cases d Hd) as [->|[->|[->|[->|[->|[->|[->|[->|[->| ->]]]]]]]]];
    split; discriminate.
Qed.

Lemma digit_char_not_zero (d : Z) :
  0 < d < 10 -> digit_char d <> "0"%char.
Proof.
  intros Hd.
  destruct (digit_cases d ltac:(lia)) as [->|[->|[->|[->|[->|[->|[->|[->|[->| ->]]]]]]]]];
    try discriminate.
  lia.
Qed.

Lemma chars_of_string_of_chars (cs : list ascii) :
  chars_of_string (string_of_chars cs) = cs.
Proof. induction cs as [|c cs IH]; simpl; [reflexivity|]. now rewrite IH. Qed.

Lemma scan_digits_digit_chars (ds : list Z) :
  Forall (fun d => 0 <= d < 10) ds ->
  forall acc,
    scan_digits acc (map digit_char ds)
    = Some (fold_left (fun acc d => acc * 10 + d) ds acc).
Proof.
  induction 1 as [|d ds Hd _ IH]; intros acc; simpl; [reflexivity|].
  rewrite char_digit_digit_char by exact Hd. apply IH.
Qed.

Lemma scan_digits_text (n : Z) :
  0 <= n -> scan_digits 0 (map digit_char (digits 10 n)) = Some n.
Proof.
  intros Hn. rewrite scan_digits_digit_chars by (apply digits_range; lia).
  f_equal. apply (value_digits 10); lia.
Qed.

Lemma digit_chars_are_digits (ds : list Z) :
  Forall (fun d => 0 <= d < 10) ds ->
  Forall (fun c => exists d, char_digit c = Some d) (map digit_char ds).
Proof.
  induction 1 as [|d ds Hd _ IH]; simpl; constructor; [|exact IH].
  exists d. now apply char_digit_digit_char.
Qed.

(** A string that starts with neither sign is read as digits throughout. *)
Lemma atoi_unsigned (c : ascii) (cs : list ascii) :
  c <> "-"%char -> c <> "+"%char ->
  big.atoi (string_of_chars (c :: cs)) = scan_digits 0 (c :: cs).
Proof.
  intros Hm Hp. unfold big.atoi. rewrite chars_of_string_of_chars.
  assert (E : match c :: cs with
              | "-"%char :: r => (true, r)
              | "+"%char :: r => (false, r)
              | _ => (false, c :: cs)
              end = (false, c :: cs)).
  { destruct c as [[] [] [] [] [] [] [] []]; try reflexivity; congruence. }
  rewrite E. destruct (scan_digits 0 (c :: cs)); reflexivity.
Qed.

Lemma atoi_negative (c : ascii) (cs : list ascii) :
  big.atoi (string_of_chars ("-"%char :: c :: cs))
  = match scan_digits 0 (c :: cs) with
    | Some n => Some (- n)
    | None => None
    end.
Proof. unfold big.atoi. now rewrite chars_of_string_of_chars. Qed.

(** Parsing undoes printing, for every integer. *)
Lemma atoi_itoa (v : Z) : big.atoi (big.itoa v) = Some v.
Proof.
  unfold big.itoa. destruct (Z.eqb_spec v 0) as [->|Hne]; [reflexivity|].
  destruct (digits_head 10 ltac:(lia) (Z.abs v) ltac:(lia))
    as (d & ds & E & Hd).
  pose proof (scan_digits_text (Z.abs v) ltac:(lia)) as Hs.
  rewrite E in *. simpl map in *.
  destruct (Z.ltb_spec v 0).
  - rewrite atoi_negative, Hs. f_equal. lia.
  - destruct (digit_char_not_sign d ltac:(lia)) as [Hm Hp].
    rewrite atoi_unsigned, Hs by assumption. f_equal. lia.
Qed.

(** The shape of the text of a positive value: digits only, the first one
    not zero. *)
Lemma itoa_positive (v : Z) :
  0 < v ->
  exists c cs,
    big.itoa v = string_of_chars (c :: cs) /\
    c <> "0"%char /\ c <> "-"%char /\ c <> "+"%char /\
    Forall (fun c => exists d, char_digit c = Some d) (c :: cs) /\
    scan_digits 0 (c :: cs) = Some v.
Proof.
  intros Hv. unfold big.itoa.
  destruct (Z.eqb_spec v 0); [lia|]. destruct (Z.ltb_spec v 0); [lia|].
  rewrite Z.abs_eq by lia.
  destruct (digits_head 10 ltac:(lia) v Hv) as (d & ds & E & Hd).
  pose proof (scan_digits_text v ltac:(lia)) as Hs.
  pose proof (digit_chars_are_digits _ (digits_range 10 ltac:(lia) v)) as Hf.
  rewrite E in *. simpl map in *.
  destruct (digit_char_not_sign d ltac:(lia)) as [Hm Hp].
  exists (digit_char d), (map digit_char ds).
  repeat split; try assumption. now apply digit_char_not_zero.
Qed.

Lemma Uint128_String_run (h : heap) (u : option positive) (v : Z) :
  value_of h u = Some v -> Uint128_String u h = Ret (big.itoa v) h.
Proof.
  intros Hu. apply value_of_inv in Hu as (a & i & -> & Ha & Hi).
  unfold Uint128_String.
  rewrite (bind_ret _ _ _ _ _ (field_Int_run _ _ _ Ha)).
  unfold big.Text. now rewrite (bind_ret _ _ _ _ _ (load_int_run _ _ _ Hi)).
Qed.

Lemma NewUint128FromString_run (h : heap) (s : string) (v : Z) :
  big.atoi s = Some v ->
  exists h' p,
    NewUint128FromString s h
    = Ret (match range_error v with
           | Some e => (None, Some e)
           | None => (p, None)
           end) h' /\
    value_of h' p = Some v.
Proof.
  intros Hs.
  set (z := fresh (dom (ints h))).
  set (h1 := Heap (<[z := 0]> (ints h)) (objs h)).
  set (h2 := Heap (<[z := v]> (ints h)) (objs h)).
  set (t := fresh (dom (objs h2))).
  set (h3 := Heap (ints h2) (<[t := Some z]> (objs h2))).
  set (r := fresh (dom (objs h3))).
  set (h4 := Heap (ints h3) (<[r := Some z]> (objs h3))).
  assert (E1 : big.new h = Ret (Some z) h1) by reflexivity.
  assert (E2 : big.SetString (Some z) s h1 = Ret (Some z, true) h2).
  { unfold big.SetString. rewrite Hs.
    rewrite (bind_ret _ _ _ _ _ (store_int_run h1 z 0 v (lookup_insert_eq _ _ _))).
    unfold h2. simpl. now rewrite insert_insert_eq. }
  assert (E3 : alloc_obj (Some z) h2 = Ret (Some t) h3) by reflexivity.
  assert (Ht : value_of h3 (Some t) = Some v).
  { apply value_of_intro with z; simpl; apply lookup_insert_eq. }
  assert (E4 : alloc_obj (Some z) h3 = Ret (Some r) h4) by reflexivity.
  assert (Hr : value_of h4 (Some r) = Some v).
  { apply value_of_intro with z; simpl; apply lookup_insert_eq. }
  unfold NewUint128FromString.
  rewrite (bind_ret _ _ _ _ _ E1), (bind_ret _ _ _ _ _ E2).
  change (negb true) with false. cbv iota.
  rewrite (bind_ret _ _ _ _ _ E3), (bind_ret _ _ _ _ _ (Validate_run _ _ _ Ht)).
  destruct (range_error v) as [e|].
  - exists h3, (Some t). now split.
  - exists h4, (Some r). rewrite (bind_ret _ _ _ _ _ E4). now split.
Qed.

Lemma NewUint128FromString_invalid (h : heap) (s : string) :
  big.atoi s = None ->
  exists h',
    NewUint128FromString s h = Ret (None, Some ErrUint128InvalidString) h'.
Proof.
  intros Hs.
  set (z := fresh (dom (ints h))).
  set (h1 := Heap (<[z := 0]> (ints h)) (objs h)).
  assert (E1 : big.new h = Ret (Some z) h1) by reflexivity.
  assert (E2 : big.SetString (Some z) s h1 = Ret (None, false) h1).
  { unfold big.SetString. rewrite Hs.
    now rewrite (bind_ret _ _ _ _ _
                   (load_int_run h1 z 0 (lookup_insert_eq _ _ _))). }
  exists h1. unfold NewUint128FromString.
  now rewrite (bind_ret _ _ _ _ _ E1), (bind_ret _ _ _ _ _ E2).
Qed.

(** C8: for every value [v] in range, [String] returns the canonical
    decimal numeral of [v]: decimal digits only (so no sign), denoting [v],
    with ["0"] for zero and no leading zero digit otherwise; and
    [NewUint128FromString] on that text succeeds with a value equal to
    [v]. *)
Theorem decimal_roundtrip (h : heap) (u : option positive) (v : Z) :
  value_of h u = Some v -> in_range v ->
  exists s,
    Uint128_String u h = Ret s h /\
    (v = 0 -> s = "0"%string) /\
    (v <> 0 ->
     exists c s', s = String c s' /\
                  c <> "0"%char /\ c <> "-"%char /\ c <> "+"%char) /\
    Forall (fun c => exists d, char_digit c = Some d) (chars_of_string s) /\
    scan_digits 0 (chars_of_string s) = Some v /\
    (forall h1,
       exists h2 p, NewUint128FromString s h1 = Ret (p, None) h2 /\
                    value_of h2 p = Some v).
Proof.
  intros Hu Hv. exists (big.itoa v).
  split; [now apply Uint128_String_run|].
  assert (Hparse : forall h1,
             exists h2 p, NewUint128FromString (big.itoa v) h1 = Ret (p, None) h2 /\
                          value_of h2 p = Some v).
  { intros h1.
    destruct (NewUint128FromString_run h1 _ v (atoi_itoa v)) as (h2 & p & E & Hp).
    rewrite (range_error_ok v Hv) in E. now exists h2, p. }
  destruct (Z.eq_dec v 0) as [->|Hne].
  - repeat split; try assumption; try reflexivity.
    + intros Hc. now contradiction Hc.
    + constructor; [|constructor]. now exists 0.
  - destruct (itoa_positive v) as (c & cs & Hi & H0 & Hm & Hp & Hf & Hs).
    { destruct Hv. lia. }
    rewrite Hi in *. rewrite chars_of_string_of_chars.
    repeat split; try assumption.
    + intros Hc. contradiction.
    + intros _. now exists c, (string_of_chars cs).
Qed.

Lemma decimal_roundtrip_witness :
  exists s,
    Uint128_String (Some 1%positive) (heap1 1024) = Ret s (heap1 1024) /\
    (1024 = 0 -> s = "0"%string) /\
    (1024 <> 0 ->
     exists c s', s = String c s' /\
                  c <> "0"%char /\ c <> "-"%char /\ c <> "+"%char) /\
    Forall (fun c => exists d, char_digit c = Some d) (chars_of_string s) /\
    scan_digits 0 (chars_of_string s) = Some 1024 /\
    (forall h1,
       exists h2 p, NewUint128FromString s h1 = Ret (p, None) h2 /\
                    value_of h2 p = Some 1024).
Proof.
  apply (decimal_roundtrip (heap1 1024) (Some 1%positive) 1024).
  - reflexivity.
  - unfold in_range. lia.
Defined.

(** ** The methods run on sample heaps *)

Example Add_max_one :
  observe (Add (Some 1%positive) (Some 2%positive)) (heap2 (2 ^ 128 - 1) 1)
  = Some (None, Some ErrUint128Overflow).
Proof. vm_compute. reflexivity. Qed.

Example Sub_zero_one :
  observe (Sub (Some 1%positive) (Some 2%positive)) (heap2 0 1)
  = Some (None, Some ErrUint128Underflow).
Proof. vm_compute. reflexivity. Qed.

Example Mul_2_64 :
  observe (Mul (Some 1%positive) (Some 2%positive)) (heap2 (2 ^ 64) (2 ^ 64))
  = Some (None, Some ErrUint128Overflow).
Proof. vm_compute. reflexivity. Qed.

Example Div_10_3 :
  observe (Div (Some 1%positive) (Some 2%positive)) (heap2 10 3)
  = Some (Some 3, None).
Proof. vm_compute. reflexivity. Qed.

Example Div_10_0 :
  observe (Div (Some 1%positive) (Some 2%positive)) (heap2 10 0) = None.
Proof. vm_compute. reflexivity. Qed.

Example Exp_2_127 :
  observe (Exp (Some 1%positive) (Some 2%positive)) (heap2 2 127)
  = Some (Some (2 ^ 127), None).
Proof. vm_compute. reflexivity. Qed.

Example Exp_2_128 :
  observe (Exp (Some 1%positive) (Some 2%positive)) (heap2 2 128)
  = Some (None, Some ErrUint128Overflow).
Proof. vm_compute. reflexivity. Qed.

Example FromBigInt_minus_one :
  observe (NewUint128FromBigInt (Some 1%positive)) (heap1 (-1))
  = Some (None, Some ErrUint128Underflow).
Proof. vm_compute. reflexivity. Qed.

Example FromBigInt_2_128 :
  observe (NewUint128FromBigInt (Some 1%positive)) (heap1 (2 ^ 128))
  = Some (None, Some ErrUint128Overflow).
Proof. vm_compute. reflexivity. Qed.

Example FromBigInt_max :
  observe (NewUint128FromBigInt (Some 1%positive)) (heap1 (2 ^ 128 - 1))
  = Some (Some (2 ^ 128 - 1), None).
Proof. vm_compute. reflexivity. Qed.

Example FromBigInt_negative_wide :
  observe (NewUint128FromBigInt (Some 1%positive)) (heap1 (- 2 ^ 129))
  = Some (None, Some ErrUint128Underflow).
Proof. vm_compute. reflexivity. Qed.

Example FromString_text :
  observe (NewUint128FromString "340282366920938463463374607431768211455")
    empty_heap
  = Some (Some (2 ^ 128 - 1), None).
Proof. vm_compute. reflexivity. Qed.

Example FromString_too_big :
  observe (NewUint128FromString "340282366920938463463374607431768211456")
    empty_heap
  = Some (None, Some ErrUint128Overflow).
Proof. vm_compute. reflexivity. Qed.

Example FromString_negative :
  observe (NewUint128FromString "-1") empty_heap
  = Some (None, Some ErrUint128Underflow).
Proof. vm_compute. reflexivity. Qed.

Example FromString_junk :
  observe (NewUint128FromString "12a") empty_heap
  = Some (None, Some ErrUint128InvalidString).
Proof. vm_compute. reflexivity. Qed.

Example String_max :
  Uint128_String (Some 1%positive) (heap1 (2 ^ 128 - 1))
  = Ret "340282366920938463463374607431768211455"%string
        (heap1 (2 ^ 128 - 1)).
Proof. vm_compute. reflexivity. Qed.

Example ToFixedSizeBytes_258 :
  ToFixedSizeBytes (Some 1%positive) (heap1 258)
  = Ret (sample16, None) (heap1 258).
Proof. vm_compute. reflexivity. Qed.

Example decode_sample16 :
  observe (NewUint128FromFixedSizeByteSlice sample16) empty_heap
  = Some (Some 258, None).
Proof. vm_compute. reflexivity. Qed.

Example decode_zero16 :
  observe (NewUint128FromFixedSizeByteSlice zero16) empty_heap
  = Some (Some 0, None).
Proof. vm_compute. reflexivity. Qed.

Example decode_15_bytes :
  observe (NewUint128FromFixedSizeByteSlice (replicate 15 x00)) empty_heap
  = Some (None, Some ErrUint128InvalidBytesSize).
Proof. vm_compute. reflexivity. Qed.

Example decode_17_bytes :
  observe (NewUint128FromFixedSizeByteSlice (replicate 17 x00)) empty_heap
  = Some (None, Some ErrUint128InvalidBytesSize).
Proof. vm_compute. reflexivity. Qed.

(** ** Beyond the claims: the constructors *)

(** X1: [NewUint128] never fails: it returns a pointer to a struct and a
    [big.Int] that did not exist before, holding 0; nothing else changes,
    the new value passes [Validate] and encodes as 16 zero bytes. *)
Theorem NewUint128_zero (h : heap) :
  exists h' p,
    NewUint128 h = Ret p h' /\
    value_of h' p = Some 0 /\
    fresh_in h h' p /\ preserves h h' /\
    Validate p h' = Ret None h' /\
    ToFixedSizeBytes p h' = Ret (zero16, None) h'.
Proof.
  destruct (NewUint128_run h) as (h' & a & i & E & Ha & Hi & Hp & Hna & Hni).
  assert (Hv : value_of h' (Some a) = Some 0) by now apply value_of_intro with i.
  exists h', (Some a).
  split; [exact E|]. split; [exact Hv|].
  split; [now exists a, i|]. split; [exact Hp|]. split.
  - apply (Validate_run h' (Some a) 0 Hv).
  - apply (ToFixedSizeBytes_run h' (Some a) 0 Hv). unfold in_range. lia.
Qed.

Lemma NewUint128FromString_frame (h : heap) (s : string) :
  exists h' p err,
    NewUint128FromString s h = Ret (p, err) h' /\
    preserves h h' /\
    match big.atoi s with
    | None => p = None /\ err = Some ErrUint128InvalidString
    | Some v =>
        match range_error v with
        | Some e => p = None /\ err = Some e
        | None => err = None /\ value_of h' p = Some v /\ fresh_in h h' p
        end
    end.
Proof.
  set (z := fresh (dom (ints h))).
  set (h1 := Heap (<[z := 0]> (ints h)) (objs h)).
  assert (Hz : ints h !! z = None) by apply fresh_lookup.
  assert (E1 : big.new h = Ret (Some z) h1) by reflexivity.
  assert (P1 : preserves h h1) by apply preserves_alloc_int.
  unfold NewUint128FromString. rewrite (bind_ret _ _ _ _ _ E1).
  destruct (big.atoi s) as [v|] eqn:Hs.
  - set (h2 := Heap (<[z := v]> (ints h)) (objs h)).
    set (t := fresh (dom (objs h2))).
    set (h3 := Heap (ints h2) (<[t := Some z]> (objs h2))).
    set (r := fresh (dom (objs h3))).
    set (h4 := Heap (ints h3) (<[r := Some z]> (objs h3))).
    assert (E2 : big.SetString (Some z) s h1 = Ret (Some z, true) h2).
    { unfold big.SetString. rewrite Hs.
      rewrite (bind_ret _ _ _ _ _
                 (store_int_run h1 z 0 v (lookup_insert_eq _ _ _))).
      unfold h2. simpl. now rewrite insert_insert_eq. }
    assert (P2 : preserves h h2).
    { split; simpl; [now apply insert_subseteq|reflexivity]. }
    assert (P3 : preserves h2 h3) by apply preserves_alloc_obj.
    assert (P4 : preserves h3 h4) by apply preserves_alloc_obj.
    assert (E3 : alloc_obj (Some z) h2 = Ret (Some t) h3) by reflexivity.
    assert (Ht : value_of h3 (Some t) = Some v).
    { apply value_of_intro with z; simpl; apply lookup_insert_eq. }
    assert (E4 : alloc_obj (Some z) h3 = Ret (Some r) h4) by reflexivity.
    assert (Hr : value_of h4 (Some r) = Some v).
    { apply value_of_intro with z; simpl; apply lookup_insert_eq. }
    rewrite (bind_ret _ _ _ _ _ E2).
    change (negb true) with false. cbv iota.
    rewrite (bind_ret _ _ _ _ _ E3),
      (bind_ret _ _ _ _ _ (Validate_run _ _ _ Ht)).
    destruct (range_error v) as [e|].
    + exists h3, None, (Some e). repeat split; try reflexivity;
        apply (preserves_trans h h2 h3 P2 P3).
    + exists h4, (Some r), None. rewrite (bind_ret _ _ _ _ _ E4).
      assert (P : preserves h h4).
      { eapply preserves_trans; [exact P2|].
        eapply preserves_trans; eassumption. }
      repeat split; try reflexivity; try apply P; try exact Hr.
      exists r, z. repeat split; try assumption.
      * assert (Hr3 : objs h3 !! r = None) by apply fresh_lookup.
        destruct (objs h !! r) as [q|] eqn:Eq; [|reflexivity].
        assert (objs h3 !! r = Some q); [|congruence].
        eapply lookup_weaken; [exact Eq|].
        apply (preserves_trans h h2 h3 P2 P3).
      * simpl. apply lookup_insert_eq.
  - assert (E2 : big.SetString (Some z) s h1 = Ret (None, false) h1).
    { unfold big.SetString. rewrite Hs.
      now rewrite (bind_ret _ _ _ _ _
                     (load_int_run h1 z 0 (lookup_insert_eq _ _ _))). }
    exists h1, None, (Some ErrUint128InvalidString).
    rewrite (bind_ret _ _ _ _ _ E2). repeat split; apply P1.
Qed.

Lemma range_error_bounds (v : Z) :
  range_error v
  = if v <? 0 then Some ErrUint128Underflow
    else if 2 ^ 128 <=? v then Some ErrUint128Overflow
    else None.
Proof.
  destruct (Z.ltb_spec v 0); [now apply range_error_neg|].
  destruct (Z.leb_spec (2 ^ 128) v); [now apply range_error_big|].
  apply range_error_ok. unfold in_range. lia.
Qed.

(** X2: [NewUint128FromString] never panics and never touches an existing
    object.  It answers [ErrUint128InvalidString] exactly when the text is
    not a base-10 integer; a parsed negative number gives
    [ErrUint128Underflow], a parsed number of 2^128 or more gives
    [ErrUint128Overflow], and otherwise the result is a new value holding
    the parsed number.  Whatever it returns without error is in range. *)
Theorem NewUint128FromString_spec (h : heap) (s : string) :
  exists h' p err,
    NewUint128FromString s h = Ret (p, err) h' /\
    preserves h h' /\
    (err = Some ErrUint128InvalidString <-> big.atoi s = None) /\
    (forall v, big.atoi s = Some v ->
       if v <? 0 then p = None /\ err = Some ErrUint128Underflow
       else if 2 ^ 128 <=? v then p = None /\ err = Some ErrUint128Overflow
       else err = None /\ value_of h' p = Some v /\ fresh_in h h' p) /\
    (err = None -> exists v, value_of h' p = Some v /\ in_range v).
Proof.
  destruct (NewUint128FromString_frame h s) as (h' & p & err & E & P & H).
  exists h', p, err. split; [exact E|]. split; [exact P|].
  destruct (big.atoi s) as [v|] eqn:Hs.
  - rewrite range_error_bounds in H.
    assert (Hcase :
              if v <? 0 then p = None /\ err = Some ErrUint128Underflow
              else if 2 ^ 128 <=? v
                   then p = None /\ err = Some ErrUint128Overflow
                   else err = None /\ value_of h' p = Some v /\
                        fresh_in h h' p).
    { destruct (v <? 0); [exact H|]. destruct (2 ^ 128 <=? v); exact H. }
    clear H. split; [|split].
    + split; [|discriminate]. intros ->.
      destruct (v <? 0); [destruct Hcase; discriminate|].
      destruct (2 ^ 128 <=? v); destruct Hcase; discriminate.
    + intros v0 [= <-]. exact Hcase.
    + intros ->. exists v.
      destruct (Z.ltb_spec v 0); [destruct Hcase; discriminate|].
      destruct (Z.leb_spec (2 ^ 128) v); [destruct Hcase; discriminate|].
      destruct Hcase as (_ & Hv & _). split; [exact Hv|].
      unfold in_range. lia.
  - destruct H as [-> ->]. split; [|split].
    + split; reflexivity.
    + discriminate.
    + discriminate.
Qed.

Lemma atoi_plus (c : ascii) (cs : list ascii) :
  big.atoi (string_of_chars ("+"%char :: c :: cs))
  = scan_digits 0 (c :: cs).
Proof.
  unfold big.atoi. rewrite chars_of_string_of_chars.
  destruct (scan_digits 0 (c :: cs)); reflexivity.
Qed.

Lemma yields_FromString (h : heap) (s : string) (v : Z) :
  big.atoi s = Some v ->
  yields (NewUint128FromString s) h
    (match range_error v with
     | Some e => inr e
     | None => inl v
     end).
Proof.
  intros Hs.
  destruct (NewUint128FromString_frame h s) as (h' & p & err & E & _ & H).
  rewrite Hs in H. exists h', p, err. split; [exact E|].
  destruct (range_error v); [exact H|]. destruct H as (? & ? & _). now split.
Qed.

(** X3: what [NewUint128FromString] accepts is wider than what [String]
    prints.  For any non-empty sequence of decimal digits denoting [n],
    leading zeros included, the digits alone and the digits after a ["+"]
    both give [n] (or [ErrUint128Overflow] from 2^128 on); after a ["-"]
    they give [ErrUint128Underflow] whatever the magnitude, except that a
    negative zero is accepted as 0. *)
Theorem NewUint128FromString_signs (h : heap) (d : Z) (ds : list Z) :
  Forall (fun d => 0 <= d < 10) (d :: ds) ->
  let n := value 10 (d :: ds) in
  let text := map digit_char (d :: ds) in
  yields (NewUint128FromString (string_of_chars text)) h
    (if n <? 2 ^ 128 then inl n else inr ErrUint128Overflow) /\
  yields (NewUint128FromString (string_of_chars ("+"%char :: text))) h
    (if n <? 2 ^ 128 then inl n else inr ErrUint128Overflow) /\
  yields (NewUint128FromString (string_of_chars ("-"%char :: text))) h
    (if n =? 0 then inl 0 else inr ErrUint128Underflow).
Proof.
  intros Hds n text.
  assert (Hscan : scan_digits 0 text = Some n).
  { apply scan_digits_digit_chars with (acc := 0). exact Hds. }
  assert (Hn : 0 <= n).
  { apply (value_bound 10 ltac:(lia) (d :: ds) Hds). }
  inversion Hds as [|? ? Hd _]. subst.
  destruct (digit_char_not_sign d Hd) as [Hm Hp].
  assert (Hpos : yields (NewUint128FromString (string_of_chars text)) h
                   (if n <? 2 ^ 128 then inl n else inr ErrUint128Overflow)
                 /\ yields (NewUint128FromString
                              (string_of_chars ("+"%char :: text))) h
                   (if n <? 2 ^ 128 then inl n else inr ErrUint128Overflow)).
  { assert (Hr : match range_error n with
                 | Some e => inr e
                 | None => inl n
                 end
                 = if n <? 2 ^ 128 then inl n else inr ErrUint128Overflow).
    { destruct (Z.ltb_spec n (2 ^ 128)).
      - now rewrite range_error_ok by (unfold in_range; lia).
      - now rewrite range_error_big by lia. }
    rewrite <- Hr. split; apply yields_FromString.
    - unfold text. simpl map. rewrite atoi_unsigned by assumption. exact Hscan.
    - unfold text. simpl map. rewrite atoi_plus. exact Hscan. }
  destruct Hpos as [H1 H2]. split; [exact H1|]. split; [exact H2|].
  assert (Hneg : big.atoi (string_of_chars ("-"%char :: text)) = Some (- n)).
  { unfold text. simpl map. rewrite atoi_negative.
    unfold text in Hscan. simpl map in Hscan. now rewrite Hscan. }
  pose proof (yields_FromString h _ _ Hneg) as H3.
  destruct (Z.eqb_spec n 0) as [E0|E0].
  - rewrite E0 in H3. exact H3.
  - rewrite range_error_neg in H3 by lia. exact H3.
Qed.

Lemma NewUint128FromString_signs_witness :
  yields (NewUint128FromString "007") empty_heap (inl 7) /\
  yields (NewUint128FromString "+007") empty_heap (inl 7) /\
  yields (NewUint128FromString "-007") empty_heap (inr ErrUint128Underflow).
Proof.
  apply (NewUint128FromString_signs empty_heap 0 [0; 7]).
  repeat constructor; lia.
Defined.

(** X4: [NewUint128FromInt] on an [int64] answers [ErrUint128Underflow]
    exactly when the integer is negative and otherwise returns a value equal
    to it: an [int64] can never overflow 128 bits. *)
Theorem NewUint128FromInt_spec (h : heap) (i : Z) :
  - 2 ^ 63 <= i < 2 ^ 63 ->
  yields (NewUint128FromInt i) h
    (if i <? 0 then inr ErrUint128Underflow else inl i).
Proof.
  intros Hi.
  set (z := fresh (dom (ints h))).
  set (h1 := Heap (<[z := i]> (ints h)) (objs h)).
  set (o := fresh (dom (objs h1))).
  set (h2 := Heap (ints h1) (<[o := Some z]> (objs h1))).
  assert (E1 : big.NewInt i h = Ret (Some z) h1) by reflexivity.
  assert (E2 : alloc_obj (Some z) h1 = Ret (Some o) h2) by reflexivity.
  assert (Hv : value_of h2 (Some o) = Some i).
  { apply value_of_intro with z; simpl; apply lookup_insert_eq. }
  assert (E : NewUint128FromInt i h
              = Ret (match range_error i with
                     | Some e => (None, Some e)
                     | None => (Some o, None)
                     end) h2).
  { unfold NewUint128FromInt.
    rewrite (bind_ret _ _ _ _ _ E1), (bind_ret _ _ _ _ _ E2),
      (bind_ret _ _ _ _ _ (Validate_run _ _ _ Hv)).
    destruct (range_error i); reflexivity. }
  assert (2 ^ 63 < 2 ^ 128) by reflexivity.
  destruct (Z.ltb_spec i 0).
  - rewrite range_error_neg in E by lia.
    exists h2, None, (Some ErrUint128Underflow). now split.
  - rewrite range_error_ok in E by (unfold in_range; lia).
    exists h2, (Some o), None. now split.
Qed.

Lemma NewUint128FromInt_spec_witness :
  yields (NewUint128FromInt (2 ^ 63 - 1)) empty_heap (inl (2 ^ 63 - 1)).
Proof.
  apply (NewUint128FromInt_spec empty_heap (2 ^ 63 - 1)). lia.
Defined.

(** ** Beyond the claims: sharing, copying, comparing *)

Lemma FromFixedSizeBytes_run (h : heap) (a i : positive) (w : Z)
    (bytes : list byte) :
  objs h !! a = Some (Some i) -> ints h !! i = Some w ->
  length bytes = 16%nat ->
  FromFixedSizeBytes (Some a) bytes h
  = Ret (Some a) (Heap (<[i := big.of_bytes bytes]> (ints h)) (objs h)).
Proof.
  intros Ha Hi Hl. unfold FromFixedSizeBytes.
  now rewrite (bind_ret _ _ _ _ _
                 (FromFixedSizeByteSlice_run h a i w bytes Ha Hi Hl)).
Qed.



Lemma NewUint128FromBigInt_frame (h : heap) (i : positive) (v : Z) :
  ints h !! i = Some v -> in_range v ->
  exists o,
    objs h !! o = None /\
    NewUint128FromBigInt (Some i) h
    = Ret (Some o, None) (Heap (ints h) (<[o := Some i]> (objs h))).
Proof.
  intros Hi Hv.
  set (o := fresh (dom (objs h))).
  set (h' := Heap (ints h) (<[o := Some i]> (objs h))).
  assert (Ho : objs h' !! o = Some (Some i)) by apply lookup_insert_eq.
  assert (Hval : value_of h' (Some o) = Some v)
    by now apply value_of_intro with i.
  exists o. split; [apply fresh_lookup|].
  unfold NewUint128FromBigInt.
  assert (E : alloc_obj (Some i) h = Ret (Some o) h') by reflexivity.
  rewrite (bind_ret _ _ _ _ _ E),
    (bind_ret _ _ _ _ _ (Validate_run _ _ _ Hval)).
  now rewrite (range_error_ok v Hv).
Qed.

(** X6: [NewUint128FromBigInt] does not copy its argument.  It allocates a
    struct around the caller's [big.Int] and no [big.Int] of its own, so two
    values made from the same [big.Int] are distinct pointers that share
    their storage: decoding bytes into the first changes the second and the
    caller's integer as well. *)
Theorem NewUint128FromBigInt_shares (h : heap) (i : positive) (v : Z)
    (bytes : list byte) :
  ints h !! i = Some v -> in_range v -> length bytes = 16%nat ->
  exists h1 p1 h2 p2 h3,
    NewUint128FromBigInt (Some i) h = Ret (p1, None) h1 /\
    NewUint128FromBigInt (Some i) h1 = Ret (p2, None) h2 /\
    p1 <> p2 /\
    ints h2 = ints h /\
    value_of h2 p1 = Some v /\ value_of h2 p2 = Some v /\
    FromFixedSizeBytes p1 bytes h2 = Ret p1 h3 /\
    value_of h3 p2 = Some (big.of_bytes bytes) /\
    ints h3 !! i = Some (big.of_bytes bytes).
Proof.
  intros Hi Hv Hl.
  destruct (NewUint128FromBigInt_frame h i v Hi Hv) as (o1 & Ho1 & E1).
  set (h1 := Heap (ints h) (<[o1 := Some i]> (objs h))) in *.
  destruct (NewUint128FromBigInt_frame h1 i v Hi Hv) as (o2 & Ho2 & E2).
  set (h2 := Heap (ints h1) (<[o2 := Some i]> (objs h1))) in *.
  assert (Hne : o1 <> o2).
  { intros ->. simpl in Ho2. rewrite lookup_insert_eq in Ho2. discriminate. }
  assert (H1 : objs h2 !! o1 = Some (Some i)).
  { simpl. rewrite lookup_insert_ne by congruence. apply lookup_insert_eq. }
  assert (H2 : objs h2 !! o2 = Some (Some i)) by apply lookup_insert_eq.
  exists h1, (Some o1), h2, (Some o2),
    (Heap (<[i := big.of_bytes bytes]> (ints h2)) (objs h2)).
  split; [exact E1|]. split; [exact E2|]. split; [congruence|].
  split; [reflexivity|].
  split; [now apply value_of_intro with i|].
  split; [now apply value_of_intro with i|].
  split; [now apply (FromFixedSizeBytes_run h2 o1 i v)|]. split.
  - apply value_of_intro with i; [exact H2|]. apply lookup_insert_eq.
  - apply lookup_insert_eq.
Qed.

Lemma NewUint128FromBigInt_shares_witness :
  exists h1 p1 h2 p2 h3,
    NewUint128FromBigInt (Some 1%positive) (heap1 7) = Ret (p1, None) h1 /\
    NewUint128FromBigInt (Some 1%positive) h1 = Ret (p2, None) h2 /\
    p1 <> p2 /\
    ints h2 = ints (heap1 7) /\
    value_of h2 p1 = Some 7 /\ value_of h2 p2 = Some 7 /\
    FromFixedSizeBytes p1 sample16 h2 = Ret p1 h3 /\
    value_of h3 p2 = Some (big.of_bytes sample16) /\
    ints h3 !! 1%positive = Some (big.of_bytes sample16).
Proof.
  apply (NewUint128FromBigInt_shares (heap1 7) 1%positive 7 sample16).
  - reflexivity.
  - unfold in_range. lia.
  - reflexivity.
Defined.

Lemma DeepCopy_run (h : heap) (a i : positive) (v : Z) :
  objs h !! a = Some (Some i) -> ints h !! i = Some v ->
  exists o z,
    objs h !! o = None /\ ints h !! z = None /\
    DeepCopy (Some a) h
    = Ret (Some o) (Heap (<[z := v]> (ints h)) (<[o := Some z]> (objs h))).
Proof.
  intros Ha Hi.
  set (z := fresh (dom (ints h))).
  set (h1 := Heap (<[z := 0]> (ints h)) (objs h)).
  set (h2 := Heap (<[z := v]> (ints h)) (objs h)).
  set (o := fresh (dom (objs h2))).
  assert (Hz : ints h !! z = None) by apply fresh_lookup.
  assert (Hne : z <> i) by (eapply fresh_ne; eassumption).
  exists o, z. split; [apply fresh_lookup|]. split; [exact Hz|].
  assert (E1 : big.new h = Ret (Some z) h1) by reflexivity.
  assert (E2 : field_Int (Some a) h1 = Ret (Some i) h1)
    by now apply field_Int_run.
  assert (E3 : big.Set_ (Some z) (Some i) h1 = Ret (Some z) h2).
  { unfold big.Set_.
    rewrite (bind_ret _ _ h1 h1 v).
    2:{ apply load_int_run. simpl. now rewrite lookup_insert_ne. }
    rewrite (bind_ret _ _ _ _ _
               (store_int_run h1 z 0 v (lookup_insert_eq _ _ _))).
    unfold h2. simpl. now rewrite insert_insert_eq. }
  unfold DeepCopy.
  now rewrite (bind_ret _ _ _ _ _ E1), (bind_ret _ _ _ _ _ E2),
    (bind_ret _ _ _ _ _ E3).
Qed.

(** X7: [DeepCopy] returns a new struct around a new [big.Int] with the
    receiver's value and leaves every existing object alone; the copy and
    the original share nothing: decoding bytes into either one afterwards
    leaves the other holding the original value. *)
Theorem DeepCopy_independent (h : heap) (u : option positive) (a : Z)
    (bytes : list byte) :
  value_of h u = Some a -> length bytes = 16%nat ->
  exists h1 c,
    DeepCopy u h = Ret c h1 /\
    value_of h1 c = Some a /\ value_of h1 u = Some a /\
    fresh_in h h1 c /\ preserves h h1 /\
    (exists h2, FromFixedSizeBytes u bytes h1 = Ret u h2 /\
                value_of h2 u = Some (big.of_bytes bytes) /\
                value_of h2 c = Some a) /\
    (exists h2, FromFixedSizeBytes c bytes h1 = Ret c h2 /\
                value_of h2 c = Some (big.of_bytes bytes) /\
                value_of h2 u = Some a).
Proof.
  intros Hu Hl.
  destruct (value_of_inv _ _ _ Hu) as (ua & ui & -> & Hua & Hui).
  destruct (DeepCopy_run h ua ui a Hua Hui) as (o & z & Ho & Hz & E).
  set (h1 := Heap (<[z := a]> (ints h)) (<[o := Some z]> (objs h))) in *.
  assert (Hzi : z <> ui) by congruence.
  assert (Hoa : o <> ua) by congruence.
  assert (Hco : objs h1 !! o = Some (Some z)) by apply lookup_insert_eq.
  assert (Hcz : ints h1 !! z = Some a) by apply lookup_insert_eq.
  assert (Huo : objs h1 !! ua = Some (Some ui)).
  { simpl. now rewrite lookup_insert_ne. }
  assert (Huz : ints h1 !! ui = Some a).
  { simpl. now rewrite lookup_insert_ne. }
  exists h1, (Some o). split; [exact E|].
  split; [now apply value_of_intro with z|].
  split; [now apply value_of_intro with ui|].
  split; [now exists o, z|].
  split; [split; simpl; now apply insert_subseteq|]. split.
  - eexists. split; [exact (FromFixedSizeBytes_run h1 ua ui a bytes Huo Huz Hl)|].
    split.
    + apply value_of_intro with ui; [exact Huo|]. apply lookup_insert_eq.
    + apply value_of_intro with z; [exact Hco|].
      simpl. rewrite lookup_insert_ne by congruence. apply lookup_insert_eq.
  - eexists. split; [exact (FromFixedSizeBytes_run h1 o z a bytes Hco Hcz Hl)|].
    split.
    + apply value_of_intro with z; [exact Hco|]. apply lookup_insert_eq.
    + apply value_of_intro with ui; [exact Huo|].
      simpl. rewrite lookup_insert_ne by congruence.
      now rewrite lookup_insert_ne.
Qed.

Lemma DeepCopy_independent_witness :
  exists h1 c,
    DeepCopy (Some 1%positive) (heap1 7) = Ret c h1 /\
    value_of h1 c = Some 7 /\ value_of h1 (Some 1%positive) = Some 7 /\
    fresh_in (heap1 7) h1 c /\ preserves (heap1 7) h1 /\
    (exists h2, FromFixedSizeBytes (Some 1%positive) sample16 h1
                = Ret (Some 1%positive) h2 /\
                value_of h2 (Some 1%positive)
                = Some (big.of_bytes sample16) /\
                value_of h2 c = Some 7) /\
    (exists h2, FromFixedSizeBytes c sample16 h1 = Ret c h2 /\
                value_of h2 c = Some (big.of_bytes sample16) /\
                value_of h2 (Some 1%positive) = Some 7).
Proof.
  apply (DeepCopy_independent (heap1 7) (Some 1%positive) 7 sample16).
  - reflexivity.
  - reflexivity.
Defined.

Lemma Cmp_run (h : heap) (u x : option positive) (a b : Z) :
  value_of h u = Some a -> value_of h x = Some b ->
  Cmp u x h = Ret (match a ?= b with Lt => -1 | Eq => 0 | Gt => 1 end) h.
Proof.
  intros Hu Hx.
  destruct (value_of_inv _ _ _ Hu) as (ua & ui & -> & Hua & Hui).
  destruct (value_of_inv _ _ _ Hx) as (xa & xi & -> & Hxa & Hxi).
  unfold Cmp, big.Cmp.
  now rewrite (bind_ret _ _ _ _ _ (field_Int_run _ _ _ Hua)),
    (bind_ret _ _ _ _ _ (field_Int_run _ _ _ Hxa)),
    (bind_ret _ _ _ _ _ (load_int_run _ _ _ Hui)),
    (bind_ret _ _ _ _ _ (load_int_run _ _ _ Hxi)).
Qed.

Lemma yields_det (m : M (option positive * option error)) (h : heap)
    (r1 r2 : Z + error) :
  yields m h r1 -> yields m h r2 -> r1 = r2.
Proof.
  intros (h1 & p1 & e1 & E1 & H1) (h2 & p2 & e2 & E2 & H2).
  rewrite E1 in E2. injection E2 as <- <- <-.
  destruct r1, r2; destruct H1, H2; congruence.
Qed.

(** X8: [Cmp] reads and changes nothing, and its answer is the order of
    the two values, whatever integers they are: -1, 0 or +1 exactly when the
    receiver is smaller, equal or larger; swapping the operands negates it;
    and on valid operands it is -1 exactly when [Sub] fails with
    [ErrUint128Underflow]. *)
Theorem Cmp_order (h : heap) (u x : option positive) (a b : Z) :
  value_of h u = Some a -> value_of h x = Some b ->
  exists c,
    Cmp u x h = Ret c h /\
    (c = -1 <-> a < b) /\ (c = 0 <-> a = b) /\ (c = 1 <-> b < a) /\
    Cmp x u h = Ret (- c) h /\
    (in_range a -> in_range b ->
     (c = -1 <-> yields (Sub u x) h (inr ErrUint128Underflow))).
Proof.
  intros Hu Hx.
  pose proof (run_arith_yields h u x a b Hu Hx OpSub ltac:(discriminate)) as HS.
  simpl in HS.
  exists (match a ?= b with Lt => -1 | Eq => 0 | Gt => 1 end).
  split; [now apply Cmp_run|].
  rewrite (Cmp_run h x u b a Hx Hu), (Z.compare_antisym a b).
  destruct (Z.compare_spec a b) as [E|E|E]; simpl;
    (split; [lia|]); (split; [lia|]); (split; [lia|]);
    (split; [reflexivity|]); intros Ha Hb.
  - split; [discriminate|]. intros HY.
    rewrite range_error_ok in HS by (destruct Ha, Hb; unfold in_range; lia).
    pose proof (yields_det _ _ _ _ HS HY). discriminate.
  - split; [intros _|reflexivity].
    now rewrite range_error_neg in HS by lia.
  - split; [discriminate|]. intros HY.
    rewrite range_error_ok in HS by (destruct Ha, Hb; unfold in_range; lia).
    pose proof (yields_det _ _ _ _ HS HY). discriminate.
Qed.

Lemma Cmp_order_witness :
  exists c,
    Cmp (Some 1%positive) (Some 2%positive) (heap2 (-4) 5)
    = Ret c (heap2 (-4) 5) /\
    (c = -1 <-> -4 < 5) /\ (c = 0 <-> -4 = 5) /\ (c = 1 <-> 5 < -4) /\
    Cmp (Some 2%positive) (Some 1%positive) (heap2 (-4) 5)
    = Ret (- c) (heap2 (-4) 5) /\
    (in_range (-4) -> in_range 5 ->
     (c = -1 <->
      yields (Sub (Some 1%positive) (Some 2%positive)) (heap2 (-4) 5)
        (inr ErrUint128Underflow))).
Proof.
  apply (Cmp_order (heap2 (-4) 5) (Some 1%positive) (Some 2%positive) (-4) 5).
  - reflexivity.
  - reflexivity.
Defined.

(** ** Beyond the claims: the codec *)

(** X9: [ToFixedSizeByteSlice] returns what [ToFixedSizeBytes] returns, so
    its slice is 16 bytes long in every case, also next to an error, where
    it is 16 zero bytes; the heap is not changed. *)
Theorem ToFixedSizeByteSlice_length (h : heap) (u : option positive)
    (v : Z) :
  value_of h u = Some v ->
  exists bs err,
    ToFixedSizeByteSlice u h = Ret (bs, err) h /\
    ToFixedSizeBytes u h = Ret (bs, err) h /\
    length bs = 16%nat /\
    (err = None <-> in_range v) /\
    (err <> None -> bs = zero16).
Proof.
  intros Hu. destruct (range_error v) as [e|] eqn:He.
  - pose proof (ToFixedSizeBytes_invalid h u v e Hu He) as E.
    exists zero16, (Some e). unfold ToFixedSizeByteSlice.
    rewrite (bind_ret _ _ _ _ _ E).
    split; [reflexivity|]. split; [exact E|]. split; [reflexivity|].
    split; [|reflexivity]. split; [discriminate|].
    intros Hv. rewrite range_error_ok in He by exact Hv. discriminate.
  - pose proof (range_error_None v He) as Hv.
    pose proof (ToFixedSizeBytes_run h u v Hu Hv) as E.
    eexists _, None. unfold ToFixedSizeByteSlice.
    rewrite (bind_ret _ _ _ _ _ E).
    split; [reflexivity|]. split; [exact E|].
    split; [now apply padded_length|].
    split; [now split|]. intros Hc. now contradiction Hc.
Qed.

Lemma ToFixedSizeByteSlice_length_witness :
  exists bs err,
    ToFixedSizeByteSlice (Some 1%positive) (heap1 (-5))
    = Ret (bs, err) (heap1 (-5)) /\
    ToFixedSizeBytes (Some 1%positive) (heap1 (-5))
    = Ret (bs, err) (heap1 (-5)) /\
    length bs = 16%nat /\
    (err = None <-> in_range (-5)) /\
    (err <> None -> bs = zero16).
Proof.
  apply (ToFixedSizeByteSlice_length (heap1 (-5)) (Some 1%positive) (-5)).
  reflexivity.
Defined.

(** X10: decoding then encoding is the identity on byte strings: for every
    16 bytes, the value [NewUint128FromFixedSizeBytes] builds passes
    [Validate] and [ToFixedSizeBytes] gives the same 16 bytes back.  With
    the round trip of C1 the codec is a bijection between 16-byte strings
    and the range. *)
Theorem decode_encode (h : heap) (bytes : list byte) :
  length bytes = 16%nat ->
  exists h' p,
    NewUint128FromFixedSizeBytes bytes h = Ret p h' /\
    Validate p h' = Ret None h' /\
    ToFixedSizeBytes p h' = Ret (bytes, None) h'.
Proof.
  intros Hl.
  destruct (NewUint128FromFixedSizeBytes_run h bytes Hl) as (h' & p & E & Hv).
  assert (Hr : in_range (big.of_bytes bytes)).
  { pose proof (of_bytes_range bytes) as Hr. rewrite Hl in Hr.
    change (256 ^ Z.of_nat 16) with (2 ^ 128) in Hr. unfold in_range. lia. }
  exists h', p. split; [exact E|]. split.
  - rewrite (Validate_run _ _ _ Hv). now rewrite range_error_ok.
  - rewrite (ToFixedSizeBytes_run _ _ _ Hv Hr). do 2 f_equal.
    apply of_bytes_inj.
    + rewrite padded_length by exact Hr. now rewrite Hl.
    + apply padded_value. destruct Hr. lia.
Qed.

Lemma decode_encode_witness :
  exists h' p,
    NewUint128FromFixedSizeBytes sample16 empty_heap = Ret p h' /\
    Validate p h' = Ret None h' /\
    ToFixedSizeBytes p h' = Ret (sample16, None) h'.
Proof. apply (decode_encode empty_heap sample16). reflexivity. Defined.

(** ** Beyond the claims: arithmetic *)

(** X11: the arithmetic methods check their result, not their operands.
    For any two live operands, whatever integers they hold, and a nonzero
    divisor for [Div], the method returns; the error is nil exactly when the
    integer computed is in range, and then the value returned is that
    integer; it is [ErrUint128Underflow] exactly when the integer is
    negative and [ErrUint128Overflow] exactly when it is 2^128 or more.  So
    no method ever hands out a value outside the range. *)
Theorem arithmetic_checks_result (o : arith) (h : heap)
    (u x : option positive) (a b : Z) :
  value_of h u = Some a -> value_of h x = Some b ->
  (o = OpDiv -> b <> 0) ->
  exists h' p err,
    run_arith o u x h = Ret (p, err) h' /\
    (err = None <-> in_range (exact o a b)) /\
    (err = None -> value_of h' p = Some (exact o a b)) /\
    (err = Some ErrUint128Underflow <-> exact o a b < 0) /\
    (err = Some ErrUint128Overflow <-> 2 ^ 128 <= exact o a b).
Proof.
  intros Hu Hx Hb.
  destruct (run_arith_returns h u x a b Hu Hx o Hb)
    as (h' & p & E & _ & _ & Hv).
  pose proof (range_error_bounds (exact o a b)) as Hc.
  assert (0 < 2 ^ 128) by reflexivity.
  destruct (Z.ltb_spec (exact o a b) 0) as [Hn|Hn];
    [|destruct (Z.leb_spec (2 ^ 128) (exact o a b)) as [Hg|Hg]];
    rewrite Hc in E; unfold in_range.
  - exists h', None, (Some ErrUint128Underflow).
    split; [exact E|]. split; [split; [discriminate|lia]|].
    split; [discriminate|]. split; split; try discriminate; try lia; auto.
  - exists h', None, (Some ErrUint128Overflow).
    split; [exact E|]. split; [split; [discriminate|lia]|].
    split; [discriminate|]. split; split; try discriminate; try lia; auto.
  - exists h', p, None.
    split; [exact E|]. split; [split; [lia|reflexivity]|].
    split; [intros _; exact Hv|]. split; split; try discriminate; lia.
Qed.

Lemma arithmetic_checks_result_witness :
  exists h' p err,
    run_arith OpAdd (Some 1%positive) (Some 2%positive) (heap2 (-3) 10)
    = Ret (p, err) h' /\
    (err = None <-> in_range (exact OpAdd (-3) 10)) /\
    (err = None -> value_of h' p = Some (exact OpAdd (-3) 10)) /\
    (err = Some ErrUint128Underflow <-> exact OpAdd (-3) 10 < 0) /\
    (err = Some ErrUint128Overflow <-> 2 ^ 128 <= exact OpAdd (-3) 10).
Proof.
  apply (arithmetic_checks_result OpAdd (heap2 (-3) 10) (Some 1%positive)
           (Some 2%positive) (-3) 10).
  - reflexivity.
  - reflexivity.
  - discriminate.
Defined.

(** Two methods in a row on the same operand [x]. *)
Lemma run_arith_twice (o1 o2 : arith) (h : heap) (u x : option positive)
    (a b : Z) :
  value_of h u = Some a -> value_of h x = Some b ->
  (o1 = OpDiv -> b <> 0) -> (o2 = OpDiv -> b <> 0) ->
  in_range (exact o1 a b) ->
  in_range (exact o2 (exact o1 a b) b) ->
  exists h1 s h2 r,
    run_arith o1 u x h = Ret (s, None) h1 /\
    run_arith o2 s x h1 = Ret (r, None) h2 /\
    value_of h2 r = Some (exact o2 (exact o1 a b) b) /\
    value_of h2 u = Some a /\ value_of h2 x = Some b.
Proof.
  intros Hu Hx Hb1 Hb2 Hr1 Hr2.
  destruct (run_arith_returns h u x a b Hu Hx o1 Hb1)
    as (h1 & s & E1 & P1 & _ & Hs).
  rewrite (range_error_ok _ Hr1) in E1.
  pose proof (preserves_value_of h h1 x b P1 Hx) as Hx1.
  destruct (run_arith_returns h1 s x _ b Hs Hx1 o2 Hb2)
    as (h2 & r & E2 & P2 & _ & Hr).
  rewrite (range_error_ok _ Hr2) in E2.
  exists h1, s, h2, r. split; [exact E1|]. split; [exact E2|].
  split; [exact Hr|].
  split; eapply preserves_value_of; try exact P2;
    eapply preserves_value_of; eassumption.
Qed.

(** X12: [Add] and [Sub] undo each other.  On valid operands, when
    [Add(u, x)] succeeds, subtracting [x] from the sum succeeds with the
    value of [u]; when [u >= x], adding [x] to [Sub(u, x)] succeeds with the
    value of [u].  The operands themselves still hold their values. *)
Theorem Add_Sub_inverse (h : heap) (u x : option positive) (a b : Z) :
  value_of h u = Some a -> value_of h x = Some b ->
  in_range a -> in_range b ->
  (a + b < 2 ^ 128 ->
   exists h1 s h2 r,
     Add u x h = Ret (s, None) h1 /\ Sub s x h1 = Ret (r, None) h2 /\
     value_of h2 r = Some a /\
     value_of h2 u = Some a /\ value_of h2 x = Some b) /\
  (b <= a ->
   exists h1 s h2 r,
     Sub u x h = Ret (s, None) h1 /\ Add s x h1 = Ret (r, None) h2 /\
     value_of h2 r = Some a /\
     value_of h2 u = Some a /\ value_of h2 x = Some b).
Proof.
  intros Hu Hx [Ha Ha'] [Hb Hb']. split; intros Hc.
  - destruct (run_arith_twice OpAdd OpSub h u x a b Hu Hx)
      as (h1 & s & h2 & r & E1 & E2 & Hr & Hu2 & Hx2);
      try discriminate; simpl; try (unfold in_range; lia).
    simpl in Hr. replace (a + b - b) with a in Hr by lia.
    now exists h1, s, h2, r.
  - destruct (run_arith_twice OpSub OpAdd h u x a b Hu Hx)
      as (h1 & s & h2 & r & E1 & E2 & Hr & Hu2 & Hx2);
      try discriminate; simpl; try (unfold in_range; lia).
    simpl in Hr. replace (a - b + b) with a in Hr by lia.
    now exists h1, s, h2, r.
Qed.

Lemma Add_Sub_inverse_witness :
  exists h1 s h2 r,
    Add (Some 1%positive) (Some 2%positive) (heap2 40 2) = Ret (s, None) h1 /\
    Sub s (Some 2%positive) h1 = Ret (r, None) h2 /\
    value_of h2 r = Some 40 /\
    value_of h2 (Some 1%positive) = Some 40 /\
    value_of h2 (Some 2%positive) = Some 2.
Proof.
  destruct (Add_Sub_inverse (heap2 40 2) (Some 1%positive) (Some 2%positive)
              40 2) as [H _].
  - reflexivity.
  - reflexivity.
  - unfold in_range. lia.
  - unfold in_range. lia.
  - apply H. lia.
Defined.

(** X13: [Div] undoes [Mul].  On valid operands with [x] nonzero, when
    [Mul(u, x)] succeeds, dividing the product by [x] succeeds with the
    value of [u]. *)
Theorem Mul_Div_inverse (h : heap) (u x : option positive) (a b : Z) :
  value_of h u = Some a -> value_of h x = Some b ->
  in_range a -> in_range b -> b <> 0 -> a * b < 2 ^ 128 ->
  exists h1 s h2 r,
    Mul u x h = Ret (s, None) h1 /\ Div s x h1 = Ret (r, None) h2 /\
    value_of h2 r = Some a /\
    value_of h2 u = Some a /\ value_of h2 x = Some b.
Proof.
  intros Hu Hx [Ha Ha'] [Hb Hb'] Hne Hc.
  assert (Hq : big.div (a * b) b = a).
  { rewrite div_quot by nia. apply Z.quot_mul. exact Hne. }
  destruct (run_arith_twice OpMul OpDiv h u x a b Hu Hx)
    as (h1 & s & h2 & r & E1 & E2 & Hr & Hu2 & Hx2);
    try discriminate; simpl; try (intros _; exact Hne).
  - unfold in_range. nia.
  - rewrite Hq. unfold in_range. lia.
  - simpl in Hr. rewrite Hq in Hr. now exists h1, s, h2, r.
Qed.

Lemma Mul_Div_inverse_witness :
  exists h1 s h2 r,
    Mul (Some 1%positive) (Some 2%positive) (heap2 6 7) = Ret (s, None) h1 /\
    Div s (Some 2%positive) h1 = Ret (r, None) h2 /\
    value_of h2 r = Some 6 /\
    value_of h2 (Some 1%positive) = Some 6 /\
    value_of h2 (Some 2%positive) = Some 7.
Proof.
  apply (Mul_Div_inverse (heap2 6 7) (Some 1%positive) (Some 2%positive) 6 7).
  - reflexivity.
  - reflexivity.
  - unfold in_range. lia.
  - unfold in_range. lia.
  - lia.
  - lia.
Defined.

(** X14: [Add] and [Mul] are commutative, errors included.  On live
    operands [Add(u, x)] and [Add(x, u)] both return, and return the same
    thing: the sum when it is in range and the same error otherwise; and
    likewise [Mul] with the product. *)
Theorem Add_Mul_commute (h : heap) (u x : option positive) (a b : Z) :
  value_of h u = Some a -> value_of h x = Some b ->
  (exists r,
     yields (Add u x) h r /\ yields (Add x u) h r /\
     (r = inl (a + b) <-> in_range (a + b))) /\
  (exists r,
     yields (Mul u x) h r /\ yields (Mul x u) h r /\
     (r = inl (a * b) <-> in_range (a * b))).
Proof.
  intros Hu Hx.
  pose proof (run_arith_yields h u x a b Hu Hx OpAdd ltac:(discriminate)) as A1.
  pose proof (run_arith_yields h x u b a Hx Hu OpAdd ltac:(discriminate)) as A2.
  pose proof (run_arith_yields h u x a b Hu Hx OpMul ltac:(discriminate)) as M1.
  pose proof (run_arith_yields h x u b a Hx Hu OpMul ltac:(discriminate)) as M2.
  simpl in A1, A2, M1, M2.
  rewrite (Z.add_comm b a) in A2. rewrite (Z.mul_comm b a) in M2.
  split.
  - eexists. split; [exact A1|]. split; [exact A2|].
    destruct (range_error (a + b)) eqn:He.
    + split; [discriminate|]. intros Hr.
      rewrite (range_error_ok _ Hr) in He. discriminate.
    + split; [intros _; now apply range_error_None|reflexivity].
  - eexists. split; [exact M1|]. split; [exact M2|].
    destruct (range_error (a * b)) eqn:He.
    + split; [discriminate|]. intros Hr.
      rewrite (range_error_ok _ Hr) in He. discriminate.
    + split; [intros _; now apply range_error_None|reflexivity].
Qed.

Lemma Add_Mul_commute_witness :
  (exists r,
     yields (Add (Some 1%positive) (Some 2%positive)) (heap2 3 4) r /\
     yields (Add (Some 2%positive) (Some 1%positive)) (heap2 3 4) r /\
     (r = inl (3 + 4) <-> in_range (3 + 4))) /\
  (exists r,
     yields (Mul (Some 1%positive) (Some 2%positive)) (heap2 3 4) r /\
     yields (Mul (Some 2%positive) (Some 1%positive)) (heap2 3 4) r /\
     (r = inl (3 * 4) <-> in_range (3 * 4))).
Proof.
  apply (Add_Mul_commute (heap2 3 4) (Some 1%positive) (Some 2%positive) 3 4).
  - reflexivity.
  - reflexivity.
Defined.

(** X15: [Div] has no test for a zero divisor: dividing any live value by a
    [Uint128] holding 0 panics inside [big.Int.Div] instead of returning an
    error; the objects that existed before are intact. *)
Theorem Div_by_zero_panics (h : heap) (u x : option positive) (a : Z) :
  value_of h u = Some a -> value_of h x = Some 0 ->
  exists h',
    Div u x h = Panic h' /\
    preserves h h' /\
    value_of h' u = Some a /\ value_of h' x = Some 0.
Proof.
  intros Hu Hx.
  destruct (Div_zero_panics h u x a 0 Hu Hx eq_refl) as (h' & E & P).
  exists h'. split; [exact E|]. split; [exact P|].
  split; eapply preserves_value_of; eassumption.
Qed.

Lemma Div_by_zero_panics_witness :
  exists h',
    Div (Some 1%positive) (Some 2%positive) (heap2 10 0) = Panic h' /\
    preserves (heap2 10 0) h' /\
    value_of h' (Some 1%positive) = Some 10 /\
    value_of h' (Some 2%positive) = Some 0.
Proof.
  apply (Div_by_zero_panics (heap2 10 0) (Some 1%positive) (Some 2%positive)
           10).
  - reflexivity.
  - reflexivity.
Defined.

(** X16: the quotient [Div] returns on valid operands with a nonzero
    divisor is the one of division with remainder: [x * q <= u < x * q + x].
    In particular it is 0 when [u < x] and [u] itself when [x] is 1. *)
Theorem Div_quotient (h : heap) (u x : option positive) (a b : Z) :
  value_of h u = Some a -> value_of h x = Some b ->
  in_range a -> in_range b -> b <> 0 ->
  exists q,
    yields (Div u x) h (inl q) /\
    b * q <= a < b * q + b /\
    (a < b -> q = 0) /\ (b = 1 -> q = a).
Proof.
  intros Hu Hx [Ha Ha'] [Hb Hb'] Hne.
  pose proof (run_arith_yields h u x a b Hu Hx OpDiv (fun _ => Hne)) as HD.
  simpl in HD. rewrite div_quot in HD by lia.
  rewrite range_error_ok in HD by (apply quot_range; unfold in_range; lia).
  rewrite Z.quot_div_nonneg in HD by lia.
  exists (a / b). split; [exact HD|].
  pose proof (Z.div_mod a b Hne) as Hdm.
  pose proof (Z.mod_pos_bound a b ltac:(lia)) as Hm.
  split; [lia|]. split.
  - intros Hlt. apply Z.div_small. lia.
  - intros ->. apply Z.div_1_r.
Qed.

Lemma Div_quotient_witness :
  exists q,
    yields (Div (Some 1%positive) (Some 2%positive)) (heap2 17 5) (inl q) /\
    5 * q <= 17 < 5 * q + 5 /\
    (17 < 5 -> q = 0) /\ (5 = 1 -> q = 17).
Proof.
  apply (Div_quotient (heap2 17 5) (Some 1%positive) (Some 2%positive) 17 5).
  - reflexivity.
  - reflexivity.
  - unfold in_range. lia.
  - unfold in_range. lia.
  - lia.
Defined.

(** X17: the edge cases of [Exp] on valid operands.  An exponent of 0 gives
    1 for every base, 0 included; an exponent of 1 gives the base; and a
    base of 0 or 1 never overflows, however large the exponent. *)
Theorem Exp_edges (h : heap) (u x : option positive) (a b : Z) :
  value_of h u = Some a -> value_of h x = Some b ->
  in_range a -> in_range b ->
  (b = 0 -> yields (Exp u x) h (inl 1)) /\
  (b = 1 -> yields (Exp u x) h (inl a)) /\
  (a = 0 -> 0 < b -> yields (Exp u x) h (inl 0)) /\
  (a = 1 -> yields (Exp u x) h (inl 1)).
Proof.
  intros Hu Hx [Ha Ha'] [Hb Hb'].
  pose proof (run_arith_yields h u x a b Hu Hx OpExp ltac:(discriminate)) as HE.
  simpl in HE. rewrite exp_pow in HE by lia.
  repeat split.
  - intros ->. exact HE.
  - intros ->. rewrite Z.pow_1_r in HE.
    now rewrite range_error_ok in HE by (unfold in_range; lia).
  - intros -> Hpos. rewrite Z.pow_0_l in HE by lia. exact HE.
  - intros ->. rewrite Z.pow_1_l in HE by lia. exact HE.
Qed.

Lemma Exp_edges_witness :
  yields (Exp (Some 1%positive) (Some 2%positive)) (heap2 0 0) (inl 1).
Proof.
  destruct (Exp_edges (heap2 0 0) (Some 1%positive) (Some 2%positive) 0 0)
    as [H _].
  - reflexivity.
  - reflexivity.
  - unfold in_range. lia.
  - unfold in_range. lia.
  - apply H. reflexivity.
Defined.

(** ** Beyond the claims: the byte order *)

Lemma value_cons (base d : Z) (ds : list Z) :
  value base (d :: ds) = d * base ^ Z.of_nat (length ds) + value base ds.
Proof.
  induction ds as [|e ds IH] using rev_ind.
  - unfold value. simpl. lia.
  - rewrite app_comm_cons, !value_snoc, IH, length_app. simpl length.
    replace (Z.of_nat (length ds + 1)) with (Z.succ (Z.of_nat (length ds)))
      by lia.
    rewrite Z.pow_succ_r by lia. ring.
Qed.

Lemma of_bytes_cons (b : byte) (bs : list byte) :
  big.of_bytes (b :: bs)
  = byte_to_Z b * 256 ^ Z.of_nat (length bs) + big.of_bytes bs.
Proof.
  unfold big.of_bytes. simpl map. rewrite value_cons. now rewrite length_map.
Qed.

(** Big-endian strings of one length compare like the numbers they
    denote. *)
Lemma bytes_ltb_lt (bs : list byte) :
  forall cs, length bs = length cs ->
    (bytes_ltb bs cs = true <-> big.of_bytes bs < big.of_bytes cs).
Proof.
  induction bs as [|b bs IH]; intros [|c cs] Hl; try discriminate.
  - simpl. unfold big.of_bytes, value. simpl. split; [discriminate|lia].
  - injection Hl as Hl. rewrite !of_bytes_cons, <- Hl.
    pose proof (of_bytes_range bs) as Hb.
    pose proof (of_bytes_range cs) as Hc. rewrite <- Hl in Hc.
    pose proof (byte_to_Z_range b). pose proof (byte_to_Z_range c).
    specialize (IH cs Hl). simpl bytes_ltb.
    set (P := 256 ^ Z.of_nat (length bs)) in *.
    destruct (Z.ltb_spec (byte_to_Z b) (byte_to_Z c)) as [Hlt|Hge]; simpl.
    + split; [intros _|reflexivity].
      assert ((byte_to_Z b + 1) * P <= byte_to_Z c * P)
        by (apply Z.mul_le_mono_nonneg_r; lia).
      lia.
    + destruct (Z.eqb_spec (byte_to_Z b) (byte_to_Z c)) as [He|Hne]; simpl.
      * rewrite He, IH. lia.
      * split; [discriminate|]. intros Hv.
        assert ((byte_to_Z c + 1) * P <= byte_to_Z b * P)
          by (apply Z.mul_le_mono_nonneg_r; lia).
        lia.
Qed.

(** X18: the fixed-size encoding preserves order.  For two valid values,
    the 16 bytes of the first come before the 16 bytes of the second in
    lexicographic byte order exactly when the first value is smaller, and
    the two encodings are equal exactly when the values are. *)
Theorem ToFixedSizeBytes_monotone (h : heap) (u x : option positive)
    (a b : Z) :
  value_of h u = Some a -> value_of h x = Some b ->
  in_range a -> in_range b ->
  exists bs cs,
    ToFixedSizeBytes u h = Ret (bs, None) h /\
    ToFixedSizeBytes x h = Ret (cs, None) h /\
    (bytes_ltb bs cs = true <-> a < b) /\
    (bs = cs <-> a = b).
Proof.
  intros Hu Hx Ha Hb.
  exists (replicate (16 - length (big.bytes a)) x00 ++ big.bytes a),
    (replicate (16 - length (big.bytes b)) x00 ++ big.bytes b).
  split; [now apply ToFixedSizeBytes_run|].
  split; [now apply ToFixedSizeBytes_run|].
  pose proof (padded_length a Ha) as La.
  pose proof (padded_length b Hb) as Lb.
  pose proof (padded_value a ltac:(destruct Ha; lia)) as Va.
  pose proof (padded_value b ltac:(destruct Hb; lia)) as Vb.
  split.
  - rewrite bytes_ltb_lt by congruence. now rewrite Va, Vb.
  - split.
    + intros E. rewrite <- Va, <- Vb, E. reflexivity.
    + intros ->. reflexivity.
Qed.

Lemma ToFixedSizeBytes_monotone_witness :
  exists bs cs,
    ToFixedSizeBytes (Some 1%positive) (heap2 255 256)
    = Ret (bs, None) (heap2 255 256) /\
    ToFixedSizeBytes (Some 2%positive) (heap2 255 256)
    = Ret (cs, None) (heap2 255 256) /\
    (bytes_ltb bs cs = true <-> 255 < 256) /\
    (bs = cs <-> 255 = 256).
Proof.
  apply (ToFixedSizeBytes_monotone (heap2 255 256) (Some 1%positive)
           (Some 2%positive) 255 256).
  - reflexivity.
  - reflexivity.
  - unfold in_range. lia.
  - unfold in_range. lia.
Defined.

(** ** Beyond the claims: text and the slice constructor *)

(** X19: the text of a value determines it: [String] on two live values
    returns the same string exactly when they hold the same integer. *)
Theorem String_injective (h : heap) (u x : option positive) (a b : Z) :
  value_of h u = Some a -> value_of h x = Some b ->
  exists s t,
    Uint128_String u h = Ret s h /\ Uint128_String x h = Ret t h /\
    (s = t <-> a = b).
Proof.
  intros Hu Hx. exists (big.itoa a), (big.itoa b).
  split; [now apply Uint128_String_run|].
  split; [now apply Uint128_String_run|]. split.
  - intros E. pose proof (atoi_itoa a) as Pa. rewrite E, atoi_itoa in Pa.
    congruence.
  - intros ->. reflexivity.
Qed.

Lemma String_injective_witness :
  exists s t,
    Uint128_String (Some 1%positive) (heap2 10 100) = Ret s (heap2 10 100) /\
    Uint128_String (Some 2%positive) (heap2 10 100) = Ret t (heap2 10 100) /\
    (s = t <-> 10 = 100).
Proof.
  apply (String_injective (heap2 10 100) (Some 1%positive) (Some 2%positive)
           10 100).
  - reflexivity.
  - reflexivity.
Defined.

(** X20: [NewUint128FromFixedSizeByteSlice] never panics and never touches
    an existing object.  It answers [ErrUint128InvalidBytesSize] with a nil
    pointer exactly when the slice is not 16 bytes long, and otherwise
    returns a new value holding the big-endian value of the bytes. *)
Theorem NewUint128FromFixedSizeByteSlice_spec (h : heap)
    (bytes : list byte) :
  exists h' p err,
    NewUint128FromFixedSizeByteSlice bytes h = Ret (p, err) h' /\
    preserves h h' /\
    (err = Some ErrUint128InvalidBytesSize <-> length bytes <> 16%nat) /\
    (length bytes <> 16%nat -> p = None) /\
    (length bytes = 16%nat ->
     err = None /\ value_of h' p = Some (big.of_bytes bytes) /\
     fresh_in h h' p).
Proof.
  destruct (NewUint128_run h) as (h1 & a & i & E & Ha & Hi & P & Hna & Hni).
  unfold NewUint128FromFixedSizeByteSlice. rewrite (bind_ret _ _ _ _ _ E).
  destruct (decide (length bytes = 16%nat)) as [Hl|Hl].
  - rewrite (FromFixedSizeByteSlice_run h1 a i 0 bytes Ha Hi Hl).
    eexists _, (Some a), None. split; [reflexivity|].
    split; [|split; [|split]].
    + destruct P as [Pi Po]. split; simpl; [|exact Po].
      now apply insert_subseteq_r.
    + split; [discriminate|]. intros Hc. contradiction.
    + intros Hc. contradiction.
    + intros _. split; [reflexivity|]. split.
      * apply value_of_intro with i; simpl; [exact Ha|apply lookup_insert_eq].
      * now exists a, i.
  - rewrite (FromFixedSizeByteSlice_bad_size h1 (Some a) bytes Hl).
    exists h1, None, (Some ErrUint128InvalidBytesSize).
    split; [reflexivity|]. split; [exact P|].
    split; [now split|]. split; [reflexivity|]. intros Hc. contradiction.
Qed.
